(** * Invoice layout and pagination engine: a shallow embedding

    This development embeds the layout logic of [invoice_generator.py]
    (text wrapping, money formatting, tax aggregation, the item table with
    its page breaks, the totals block, the note block and the intake of
    the batch CSV items cell) and proves the properties its specification
    states about it.

    Modelling conventions.
    - A Python [str] is a list of Unicode code points ([pystr]); string
      literals of the source are decoded from UTF-8 by [utf8].
    - Amounts, quantities and tax rates are Python [float]s, that is
      binary64 numbers; they are the kernel's primitive floats, so [*] and
      [+] round as the source's do, and [==], [<=] are the IEEE
      comparisons.  Formatting of a finite float is defined on the exact
      rational it denotes.
    - Page coordinates are kept as exact rationals ([Q]).
    - The canvas is the ordered list of the calls made on it ([instr]).
    - Library functions the program calls but does not define
      ([pdfmetrics.stringWidth], the builtin [float] on strings, [str] on
      floats, the presence of the logo file) are variables of a section.
    - In the source the statement [invoice_no = ...] (line 211) and the
      [if] that follows it start at column 0 although they sit in the
      middle of the body of [generate_invoice_pdf]; the embedding reads
      lines 211-217 one level deeper, as the body they continue. *)

From Stdlib Require Import Ascii String.
From Stdlib Require Import ZArith QArith Qminmax Qround Qabs.
From Stdlib Require Import List Bool Lia Lqa Sorted Permutation SetoidList.
From Stdlib Require Import Floats.
Import ListNotations.

Local Open Scope Q_scope.

(** ** Text *)

Module Text.

Definition pychar := N.
Definition pystr := list pychar.

Definition pystr_eqb (a b : pystr) : bool :=
  if list_eq_dec N.eq_dec a b then true else false.

(** Continuation byte of a UTF-8 sequence: its low six bits. *)
Definition cont (a : ascii) : N := N.modulo (N_of_ascii a) 64.

(** Decoder for the (well-formed) UTF-8 literals of this file. *)
Fixpoint utf8 (s : String.string) : pystr :=
  match s with
  | String.EmptyString => []
  | String.String a r =>
      let b := N_of_ascii a in
      if (b <? 128)%N then b :: utf8 r
      else if (b <? 224)%N then
        match r with
        | String.String b1 r1 => ((b mod 32) * 64 + cont b1)%N :: utf8 r1
        | _ => [b]
        end
      else if (b <? 240)%N then
        match r with
        | String.String b1 (String.String b2 r2) =>
            ((b mod 16) * 4096 + cont b1 * 64 + cont b2)%N :: utf8 r2
        | _ => [b]
        end
      else
        match r with
        | String.String b1 (String.String b2 (String.String b3 r3)) =>
            ((b mod 8) * 262144 + cont b1 * 4096 + cont b2 * 64 + cont b3)%N
              :: utf8 r3
        | _ => [b]
        end
  end.

Arguments utf8 s%_string.

(** Python truthiness of a string: [if s:]. *)
Definition nonempty (s : pystr) : bool :=
  match s with [] => false | _ => true end.

End Text.
Import Text.

(** ** The canvas as a trace of calls *)

Inductive instr : Type :=
| SetFont (font : pystr) (size : Q)
| DrawString (x y : Q) (text : pystr)
| DrawRightString (x y : Q) (text : pystr)
| Line (x1 y1 x2 y2 : Q)
| DrawImage (path : pystr) (x y w h : Q)
| ShowPage
| Save.

Definition is_show_page (i : instr) : bool :=
  match i with ShowPage => true | _ => false end.

(** Number of pages closed by a trace. *)
Definition pages (t : list instr) : nat :=
  length (filter is_show_page t).

(** ** Text wrapping *)

Section Wrap.

(** [pdfmetrics.stringWidth(text, fontName, fontSize)]. *)
Variable stringWidth : pystr -> pystr -> Q -> Q.

Variable font_name : pystr.
Variable font_size : Q.
Variable max_width : Q.

Definition fits (s : pystr) : bool :=
  Qle_bool (stringWidth s font_name font_size) max_width.

(** The loop of [wrap_lines]: [lines] and [cur] after the characters
    of [s] have been consumed. *)
Fixpoint wrap_loop (s : pystr) (lines : list pystr) (cur : pystr)
  : list pystr * pystr :=
  match s with
  | [] => (lines, cur)
  | ch :: s' =>
      let test := cur ++ [ch] in
      if fits test then wrap_loop s' lines test
      else wrap_loop s' (lines ++ [cur]) [ch]
  end.

Definition wrap_lines (s : pystr) : list pystr :=
  let '(lines, cur) := wrap_loop s [] [] in
  let lines := if nonempty cur then lines ++ [cur] else lines in
  match lines with
  | [] => [[]]
  | _ => lines
  end.

Definition wrap_lines_right (s : pystr) : list pystr := wrap_lines s.

(** The loop of [draw_wrapped]: calls issued, cursor and accumulator. *)
Fixpoint draw_wrapped_loop (s : pystr) (x y line_height : Q) (line : pystr)
  : list instr * Q * pystr :=
  match s with
  | [] => ([], y, line)
  | ch :: s' =>
      let test := line ++ [ch] in
      if fits test then draw_wrapped_loop s' x y line_height test
      else
        let '(t, y', line') :=
          draw_wrapped_loop s' x (y - line_height) line_height [ch] in
        (DrawString x y line :: t, y', line')
  end.

Definition draw_wrapped (text : pystr) (x y line_height : Q)
  : list instr * Q :=
  let '(t, y', line) := draw_wrapped_loop text x y line_height [] in
  if nonempty line
  then (SetFont font_name font_size :: t ++ [DrawString x y' line],
        y' - line_height)
  else (SetFont font_name font_size :: t, y').

End Wrap.

(** ** Number formatting *)

Module Format.

Definition Qlt_bool (a b : Q) : bool := negb (Qle_bool b a).

Definition digit_char (d : Z) : pychar := (48 + Z.to_N d)%N.

(** Decimal digits of [n], most significant first; [fuel] bounds the
    number of digits after the first. *)
Fixpoint digits_aux (fuel : nat) (n : Z) : pystr :=
  match fuel with
  | O => [digit_char n]
  | S f =>
      if (n <? 10)%Z then [digit_char n]
      else digits_aux f (n / 10) ++ [digit_char (n mod 10)]
  end.

(** Decimal digits of a non-negative integer (it has no more decimal
    digits than binary ones). *)
Definition int_digits (n : Z) : pystr :=
  digits_aux (Z.to_nat (Z.log2 n)) n.

(** [prec] digits of [m], zero padded on the left. *)
Fixpoint frac_digits (prec : nat) (m : Z) : pystr :=
  match prec with
  | O => []
  | S p =>
      digit_char (m / 10 ^ Z.of_nat p)
        :: frac_digits p (m mod 10 ^ Z.of_nat p)
  end.

Definition comma : pychar := 44%N.
Definition dot : pychar := 46%N.
Definition minus : pychar := 45%N.

(** Thousands separators, on the digits written least significant
    first. *)
Fixpoint chunk3 (l : pystr) : pystr :=
  match l with
  | a :: b :: c :: ((_ :: _) as r) => a :: b :: c :: comma :: chunk3 r
  | _ => l
  end.

Definition group_thousands (ds : pystr) : pystr := rev (chunk3 (rev ds)).

(** Rounding of the [f] presentation type: to nearest, ties to even. *)
Definition round_half_even (q : Q) : Z :=
  let f := Qfloor q in
  match Qcompare (q - inject_Z f) (1 # 2) with
  | Lt => f
  | Gt => (f + 1)%Z
  | Eq => if Z.even f then f else (f + 1)%Z
  end.

(** The format specifications [",.0f"], [",.2f"] and [".0f"]:
    [format(v, ",.{prec}f")] when [grouping], [format(v, ".{prec}f")]
    otherwise. *)
Definition format_fixed (grouping : bool) (prec : nat) (v : Q) : pystr :=
  let scale := (10 ^ Z.of_nat prec)%Z in
  let n := round_half_even (Qabs v * inject_Z scale) in
  let sign := if Qlt_bool v 0 then [minus] else [] in
  let ip := int_digits (n / scale) in
  let ip := if grouping then group_thousands ip else ip in
  sign ++ ip ++
  match prec with
  | O => []
  | _ => dot :: frac_digits prec (n mod scale)
  end.

(** [int(x)]: truncation towards zero. *)
Definition py_int (q : Q) : Z := Z.quot (Qnum q) (Zpos (Qden q)).

(** [str(n)] for an integer. *)
Definition str_int (n : Z) : pystr :=
  (if (n <? 0)%Z then [minus] else []) ++ int_digits (Z.abs n).

End Format.
Import Format.

(** ** Money *)

Definition JPY : pystr := utf8 "JPY".
Definition yen_sign : pystr := utf8 "¥".

(** The nested function [money] of [generate_invoice_pdf]; [currency]
    is the variable it closes over. *)
Definition money (currency : pystr) (v : Q) : pystr :=
  let s := if pystr_eqb currency JPY
           then format_fixed true 0 v else format_fixed true 2 v in
  if pystr_eqb currency JPY then yen_sign ++ s else s.

(** ** Binary64 numbers *)

Module Float64.

(** The exact value of a finite float; 0 for the others. *)
Definition float_value (f : float) : Q :=
  match Prim2SF f with
  | S754_finite s m e =>
      (if s then - inject_Z (Zpos m) else inject_Z (Zpos m)) * Qpower 2 e
  | _ => 0
  end.

(** Neither [nan] nor an infinity. *)
Definition is_finite (f : float) : bool :=
  match Prim2SF f with
  | S754_zero _ | S754_finite _ _ _ => true
  | _ => false
  end.

(** [x == x]: every float but [nan]. *)
Definition is_number (f : float) : bool := PrimFloat.eqb f f.

(** [format(v, ",.{prec}f")] (or [".{prec}f"]) for a float: [nan] and the
    infinities print by name, a negative zero keeps its sign, and a finite
    value prints as the rational it denotes. *)
Definition format_float (grouping : bool) (prec : nat) (f : float) : pystr :=
  match Prim2SF f with
  | S754_nan => utf8 "nan"
  | S754_infinity s => (if s then [minus] else []) ++ utf8 "inf"
  | S754_zero true => minus :: format_fixed grouping prec 0
  | _ => format_fixed grouping prec (float_value f)
  end.

(** [int(x)] for a float; [None] stands for the [ValueError] on [nan]
    and the [OverflowError] on an infinity. *)
Definition int_of_float (f : float) : option Z :=
  if is_finite f then Some (py_int (float_value f)) else None.

(** The float of a small non-negative integer. *)
Definition float_of_Z (z : Z) : float :=
  PrimFloat.of_uint63 (Uint63Axioms.of_Z z).

End Float64.
Import Float64.

(** [money(v)] for the float [v] the layout passes: [money] above on the
    value of a finite float, the names of the others. *)
Definition money_float (currency : pystr) (v : float) : pystr :=
  let s := if pystr_eqb currency JPY
           then format_float true 0 v else format_float true 2 v in
  if pystr_eqb currency JPY then yen_sign ++ s else s.

(** ** Invoice records *)

(** The values the intake code stores under ["tax_rate"]. *)
Inductive pyval : Type :=
| PyNone
| PyStr (s : pystr)
| PyFloat (f : float).

(** Fourth component of an item tuple: [None] (also a 3-tuple), the empty
    string, or a rate. *)
Inductive taxval : Type :=
| TaxNone
| TaxEmpty
| TaxRate (r : float).

(** An item tuple [(desc, qty, unit, taxv)]; the third component is called
    [unit_price] here. *)
Record item : Type := mkItem {
  desc : pystr;
  qty : float;
  unit_price : float;
  taxv : taxval
}.

(** The [data] dictionary.  A key read with [data.get(k, "")] is a plain
    string (absent reads as empty); [title] and [currency] have another
    default, so their absence is kept. *)
Record invoice : Type := mkInvoice {
  title : option pystr;
  seller_name : pystr;
  seller_address : pystr;
  seller_email : pystr;
  seller_phone : pystr;
  buyer_name : pystr;
  buyer_address : pystr;
  buyer_email : pystr;
  buyer_phone : pystr;
  invoice_no : pystr;
  date : pystr;
  due_date : pystr;
  currency : option pystr;
  tax_rate : pyval;
  note : pystr;
  items : list item
}.

(** [data.get(k, default)]. *)
Definition get_or (o : option pystr) (default : pystr) : pystr :=
  match o with Some v => v | None => default end.

(** [currency = data.get("currency", "JPY")]. *)
Definition currency_of (d : invoice) : pystr := get_or (currency d) JPY.

(** Whether the logo file exists and whether drawing it succeeds. *)
Inductive logo_status : Type :=
| LogoAbsent
| LogoDrawn
| LogoFails.

(** ** Page geometry *)

Definition mm : Q := 360 # 127.
Definition width : Q := 210 * mm.
Definition height : Q := 297 * mm.
Definition margin_x : Q := 18 * mm.
Definition margin_y : Q := 18 * mm.
Definition title_font_size : Q := 18.
Definition text_font_size : Q := 10.
Definition y_top : Q := height - margin_y - 12 * mm.
Definition col_gap : Q := 6 * mm.
Definition col_split_x : Q := margin_x + 90 * mm.
Definition meta_x : Q := col_split_x + col_gap.
Definition meta_max_w : Q := (width - margin_x) - meta_x.
Definition col_x0 : Q := margin_x.
Definition col_x1 : Q := margin_x + 90 * mm.
Definition col_x2 : Q := margin_x + 120 * mm.
Definition col_x3 : Q := margin_x + 145 * mm.
Definition col_x4 : Q := width - margin_x.
Definition pad_l : Q := 2 * mm.
Definition pad_r : Q := 2 * mm.
Definition w_desc : Q := (col_x1 - col_x0) - (pad_l + pad_r).
Definition w_qty : Q := (col_x2 - col_x1) - (pad_l + pad_r).
Definition w_unit : Q := (col_x3 - col_x2) - (pad_l + pad_r).
Definition w_sub : Q := (col_x4 - col_x3) - (pad_l + pad_r).
Definition line_h : Q := 14.
Definition totals_x_label : Q := col_x3 - 30 * mm.
Definition totals_x_val : Q := col_x4 - 4.
Definition note_max_w : Q := width - 2 * margin_x.

(** ** Tax buckets: [subtotal_by_rate = defaultdict(float)] *)

(** Insertion-ordered dictionary from rate to subtotal.  Keys are compared
    with [==]; the same [nan] object found again by identity is not
    modelled, a [nan] key making the totals loop raise in any case. *)
Definition rate_dict := list (float * float).

(** [d[rate] += sub]; a missing key starts from [0.0]. *)
Fixpoint dict_add (rate sub : float) (d : rate_dict) : rate_dict :=
  match d with
  | [] => [(rate, (0 + sub)%float)]
  | (k, v) :: d' =>
      if PrimFloat.eqb k rate then (k, (v + sub)%float) :: d'
      else (k, v) :: dict_add rate sub d'
  end.

(** [d[rate]]; [0.0] for a missing key. *)
Fixpoint dict_get (rate : float) (d : rate_dict) : float :=
  match d with
  | [] => 0%float
  | (k, v) :: d' => if PrimFloat.eqb k rate then v else dict_get rate d'
  end.

Definition dict_keys (d : rate_dict) : list float := map fst d.

Fixpoint insert_desc (r : float) (l : list float) : list float :=
  match l with
  | [] => [r]
  | x :: l' => if PrimFloat.leb x r then r :: l else x :: insert_desc r l'
  end.

(** [sorted(keys, reverse=True)]: the keys of a dictionary are pairwise
    different, so every sort yields the same list when none is [nan]. *)
Definition sorted_desc (l : list float) : list float :=
  fold_right insert_desc [] l.

(** [rate = default_rate if (taxv in (None, "")) else float(taxv)]. *)
Definition effective_rate (default_rate : float) (t : taxval) : float :=
  match t with
  | TaxNone | TaxEmpty => default_rate
  | TaxRate r => r
  end.

(** [sub = float(qty) * float(unit)]. *)
Definition item_subtotal (it : item) : float :=
  (qty it * unit_price it)%float.

(** ** The layout pass: [generate_invoice_pdf] *)

Section Render.

(** [pdfmetrics.stringWidth(text, fontName, fontSize)]. *)
Variable stringWidth : pystr -> pystr -> Q -> Q.
(** The builtin [float] on a string; [None] stands for [ValueError]. *)
Variable py_float : pystr -> option float.
(** The builtin [str] on a float. *)
Variable str_float : float -> pystr.
(** [JP_FONT_NAME or FALLBACK_FONT]. *)
Variable base_font : pystr.
Variable logo : logo_status.

(** [bool(v)]. *)
Definition truthy (v : pyval) : bool :=
  match v with
  | PyNone => false
  | PyStr s => nonempty s
  | PyFloat f => negb (PrimFloat.eqb f 0)
  end.

(** [float(v)]; [None] stands for the exception it raises. *)
Definition to_float (v : pyval) : option float :=
  match v with
  | PyNone => None
  | PyStr s => py_float s
  | PyFloat f => Some f
  end.

(** [float(data.get('tax_rate') or 0)]. *)
Definition default_rate_of (d : invoice) : option float :=
  if truthy (tax_rate d) then to_float (tax_rate d) else Some 0%float.

Definition wrap (size max_w : Q) (s : pystr) : list pystr :=
  wrap_lines stringWidth base_font size max_w s.

(** [for ln in lines: draw(x, y, ln); y -= step]. *)
Fixpoint draw_lines (draw : Q -> Q -> pystr -> instr) (x y step : Q)
  (lines : list pystr) : list instr * Q :=
  match lines with
  | [] => ([], y)
  | ln :: rest =>
      let '(t, y') := draw_lines draw x (y - step) step rest in
      (draw x y ln :: t, y')
  end.

(** [for line in lines: if line: y = draw_wrapped(...)] of the seller and
    buyer blocks. *)
Fixpoint draw_block (lines : list pystr) (y max_w : Q) : list instr * Q :=
  match lines with
  | [] => ([], y)
  | line :: rest =>
      if nonempty line then
        let '(t1, y1) :=
          draw_wrapped stringWidth base_font text_font_size max_w
            line margin_x y 12 in
        let '(t2, y2) := draw_block rest y1 max_w in
        (t1 ++ t2, y2)
      else draw_block rest y max_w
  end.

(** [for label, val in meta_fields: ...]. *)
Fixpoint draw_meta (fields : list (pystr * pystr)) (y : Q)
  : list instr * Q :=
  match fields with
  | [] => ([], y)
  | (label, val) :: rest =>
      let '(t1, y1) :=
        draw_lines DrawString meta_x (y - 12) 14 (wrap 10 meta_max_w val) in
      let '(t2, y2) := draw_meta rest y1 in
      (DrawString meta_x y label :: t1 ++ t2, y2)
  end.

Definition Qmin3 (a b c : Q) : Q := Qmin (Qmin a b) c.

Definition items_title : pystr := utf8 "明細 / Items".

(** Everything drawn before the first item row; returns the trace and the
    cursor [row_y] of the first row.  [rate] is the default tax rate. *)
Definition header_phase (d : invoice) (rate : float) : list instr * Q :=
  let t_title :=
    [SetFont base_font title_font_size;
     DrawString margin_x (height - margin_y)
       (get_or (title d) (utf8 "請求書 / INVOICE"));
     SetFont base_font text_font_size] in
  let '(t_logo, logo_bottom_y) :=
    match logo with
    | LogoDrawn =>
        let logo_w := 24 * mm in
        let logo_h := 24 * mm in
        let logo_x := width - margin_x - logo_w in
        let logo_y := height - margin_y - logo_h in
        ([DrawImage (utf8 "static/logo.png") logo_x logo_y logo_w logo_h],
         logo_y)
    | _ => ([], y_top)
    end in
  let t_heads :=
    [SetFont base_font 11;
     DrawString margin_x y_top (utf8 "請求元 / From");
     DrawString meta_x y_top (utf8 "請求書番号 / Invoice No.")] in
  let y_left := y_top - 16 in
  let one_char_w := stringWidth (utf8 "あ") base_font text_font_size in
  let seller_max_w := Qmax (40 * mm) ((col_split_x - margin_x) - one_char_w) in
  let '(t_seller, y_left) :=
    draw_block
      [seller_name d; seller_address d; seller_phone d; seller_email d]
      y_left seller_max_w in
  let y_right := y_top - 16 in
  let '(t_no, y_right) :=
    if nonempty (invoice_no d) then
      let '(t, y) :=
        draw_lines DrawString meta_x y_right 14
          (wrap 10 meta_max_w (invoice_no d)) in
      (SetFont base_font 10 :: t, y - 2)
    else ([], y_right) in
  let meta_fields :=
    [(utf8 "請求日 / Date", date d);
     (utf8 "支払期日 / Due Date", due_date d);
     (utf8 "通貨 / Currency", currency_of d);
     (utf8 "税率 / Tax Rate",
      format_float false 0 (rate * 100)%float ++ utf8 "%")] in
  let '(t_meta, y_right) := draw_meta meta_fields y_right in
  let y_bt := Qmin3 y_left y_right logo_bottom_y - 10 * mm in
  let buyer_max_w := (col_split_x - margin_x) - one_char_w in
  let '(t_buyer, y_bt') :=
    draw_block
      [buyer_name d; buyer_address d; buyer_phone d; buyer_email d]
      (y_bt - 16) buyer_max_w in
  let table_top := Qmin3 y_bt' y_left y_right - 8 * mm in
  let header_y := table_top - 16 in
  let t_table :=
    [SetFont base_font 11;
     DrawString margin_x table_top items_title;
     SetFont base_font 10;
     DrawString col_x0 header_y (utf8 "内容 / Description");
     DrawString col_x1 header_y (utf8 "数量 / Qty");
     DrawString col_x2 header_y (utf8 "単価 / Unit");
     DrawString col_x3 header_y (utf8 "小計 / Subtotal");
     Line margin_x (header_y - 4) (width - margin_x) (header_y - 4)] in
  (t_title ++ t_logo ++ t_heads ++ t_seller ++ t_no
     ++ [SetFont base_font 10] ++ t_meta
     ++ [SetFont base_font 11; DrawString margin_x y_bt (utf8 "請求先 / Bill To")]
     ++ t_buyer ++ t_table,
   header_y - 18).

(** *** Item table *)

Definition desc_lines (it : item) : list pystr :=
  wrap 10 w_desc (desc it).
Definition qty_lines (it : item) : list pystr :=
  wrap_lines_right stringWidth base_font 10 w_qty (str_float (qty it)).
Definition unit_lines (cur : pystr) (it : item) : list pystr :=
  wrap_lines_right stringWidth base_font 10 w_unit
    (money_float cur (unit_price it)).
Definition sub_lines (cur : pystr) (it : item) : list pystr :=
  wrap_lines_right stringWidth base_font 10 w_sub
    (money_float cur (item_subtotal it)).

Definition max_lines (cur : pystr) (it : item) : nat :=
  Nat.max (Nat.max (Nat.max (length (desc_lines it)) (length (qty_lines it)))
             (length (unit_lines cur it)))
    (length (sub_lines cur it)).

Definition row_height (cur : pystr) (it : item) : Q :=
  inject_Z (Z.of_nat (max_lines cur it)) * line_h.

(** The overflow test made before a row is drawn. *)
Definition overflows (cur : pystr) (it : item) (row_y : Q) : bool :=
  Qlt_bool (row_y - row_height cur it) (40 * mm).

(** The calls of the page-break branch. *)
Definition page_break : list instr :=
  [ShowPage;
   SetFont base_font 11;
   DrawString margin_x (height - margin_y - 12 * mm) items_title;
   SetFont base_font 10].

(** Cursor at which the row is drawn. *)
Definition row_top (cur : pystr) (it : item) (row_y : Q) : Q :=
  if overflows cur it row_y then height - margin_y - 40 * mm else row_y.

(** The four column loops of one row, drawn from [y]. *)
Definition draw_row (cur : pystr) (it : item) (y : Q) : list instr :=
  fst (draw_lines DrawString (col_x0 + pad_l) y line_h (desc_lines it))
  ++ fst (draw_lines DrawRightString (col_x2 - pad_r) y line_h (qty_lines it))
  ++ fst (draw_lines DrawRightString (col_x3 - pad_r) y line_h
            (unit_lines cur it))
  ++ fst (draw_lines DrawRightString (col_x4 - pad_r) y line_h
            (sub_lines cur it)).

(** One iteration of [for it in items]. *)
Definition item_step (cur : pystr) (default_rate : float) (it : item)
  (row_y : Q) (by_rate : rate_dict) : list instr * Q * rate_dict :=
  let sub := item_subtotal it in
  let rate := effective_rate default_rate (taxv it) in
  let by_rate := dict_add rate sub by_rate in
  let y := row_top cur it row_y in
  (SetFont base_font 10
     :: (if overflows cur it row_y then page_break else [])
     ++ draw_row cur it y,
   y - row_height cur it,
   by_rate).

Fixpoint items_loop (cur : pystr) (default_rate : float) (its : list item)
  (row_y : Q) (by_rate : rate_dict) : list instr * Q * rate_dict :=
  match its with
  | [] => ([], row_y, by_rate)
  | it :: rest =>
      let '(t1, y1, d1) := item_step cur default_rate it row_y by_rate in
      let '(t2, y2, d2) := items_loop cur default_rate rest y1 d1 in
      (t1 ++ t2, y2, d2)
  end.

(** *** Totals *)

(** The text of [int(rate*100)] in the two labels; [None] when [int]
    raises, which it does when [rate*100] is [nan] or infinite. *)
Definition pct (rate : float) : option pystr :=
  match int_of_float (rate * 100)%float with
  | Some n => Some (str_int n)
  | None => None
  end.

Definition bucket_label (percent : pystr) : pystr :=
  utf8 "対象小計（" ++ percent ++ utf8 "%）".
Definition tax_label (percent : pystr) : pystr :=
  utf8 "消費税（" ++ percent ++ utf8 "%）".

(** [for rate in sorted(subtotal_by_rate.keys(), reverse=True)]:
    trace, cursor, [total_sub], [total_tax]; [None] when a label raises. *)
Fixpoint totals_loop (cur : pystr) (rates : list float) (by_rate : rate_dict)
  (row_y : Q) (total_sub total_tax : float)
  : option (list instr * Q * float * float) :=
  match rates with
  | [] => Some ([], row_y, total_sub, total_tax)
  | rate :: rest =>
      let sub := dict_get rate by_rate in
      let tax := (sub * rate)%float in
      match pct rate with
      | None => None
      | Some percent =>
          match
            totals_loop cur rest by_rate (row_y - 14 - 14)
              (total_sub + sub)%float (total_tax + tax)%float
          with
          | None => None
          | Some (t, y, tsub, ttax) =>
              Some
                (DrawRightString totals_x_label row_y (bucket_label percent)
                   :: DrawRightString totals_x_val row_y (money_float cur sub)
                   :: DrawRightString totals_x_label (row_y - 14)
                        (tax_label percent)
                   :: DrawRightString totals_x_val (row_y - 14)
                        (money_float cur tax)
                   :: t,
                 y, tsub, ttax)
          end
      end
  end.

Definition total_label : pystr := utf8 "合計 / Total".

(** From the first rule to the total line: trace, cursor, [total_sub],
    [total_tax]; [None] when the loop raises. *)
Definition totals_phase (cur : pystr) (by_rate : rate_dict) (row_y : Q)
  : option (list instr * Q * float * float) :=
  let y0 := row_y - 6 in
  match
    totals_loop cur (sorted_desc (dict_keys by_rate)) by_rate
      (y0 - 18) 0%float 0%float
  with
  | None => None
  | Some (t, y1, total_sub, total_tax) =>
      let y2 := y1 - 18 in
      let y3 := y2 - 14 in
      Some
        (Line margin_x y0 (width - margin_x) y0
           :: t
           ++ [Line margin_x y1 (width - margin_x) y1;
               DrawRightString totals_x_label y2 (utf8 "小計 / Subtotal");
               DrawRightString totals_x_val y2 (money_float cur total_sub);
               SetFont base_font 12;
               DrawRightString totals_x_label y3 total_label;
               DrawRightString totals_x_val y3
                 (money_float cur (total_sub + total_tax)%float)],
         y3, total_sub, total_tax)
  end.

(** *** Note *)

Fixpoint note_loop (lines : list pystr) (row_y : Q) : list instr * Q :=
  match lines with
  | [] => ([], row_y)
  | ln :: rest =>
      let brk := Qlt_bool row_y (24 * mm) in
      let y := if brk then height - margin_y else row_y in
      let '(t, y') := note_loop rest (y - 12) in
      ((if brk then [ShowPage; SetFont base_font 9] else [])
         ++ DrawString margin_x y ln :: t,
       y')
  end.

Definition note_phase (note_text : pystr) (row_y : Q) : list instr * Q :=
  let '(t, y) := note_loop (wrap 9 note_max_w note_text) (row_y - 22) in
  (SetFont base_font 9 :: t, y).

(** *** The whole pass *)

(** The phases of one render, for a default rate already converted. *)
Record phases : Type := mkPhases {
  ph_header : list instr;
  ph_items : list instr;
  ph_totals : list instr;
  ph_note : list instr;
  ph_close : list instr;
  ph_by_rate : rate_dict;
  ph_total_sub : float;
  ph_total_tax : float
}.

(** [None] when the totals raise; the note is then never reached. *)
Definition render_phases (d : invoice) (rate : float) : option phases :=
  let cur := currency_of d in
  let '(t_head, row_y) := header_phase d rate in
  let '(t_items, row_y, by_rate) := items_loop cur rate (items d) row_y [] in
  match totals_phase cur by_rate row_y with
  | None => None
  | Some (t_tot, row_y, total_sub, total_tax) =>
      let '(t_note, _) := note_phase (note d) row_y in
      Some (mkPhases t_head t_items t_tot t_note [ShowPage; Save]
              by_rate total_sub total_tax)
  end.

Definition trace_of (p : phases) : list instr :=
  ph_header p ++ ph_items p ++ ph_totals p ++ ph_note p ++ ph_close p.

(** The canvas calls of [generate_invoice_pdf(data)]; [None] when the
    conversion of the tax rate or a label of the totals raises. *)
Definition generate_invoice_pdf (d : invoice) : option (list instr) :=
  match default_rate_of d with
  | None => None
  | Some rate =>
      match render_phases d rate with
      | None => None
      | Some p => Some (trace_of p)
      end
  end.

(** *** Intake of the items cell in the batch route *)

Definition semicolon : pychar := 59%N.
Definition pipe : pychar := 124%N.

(** [s.split(sep)] for a one-character separator. *)
Fixpoint split_on (sep : pychar) (s : pystr) : list pystr :=
  match s with
  | [] => [[]]
  | c :: r =>
      if (c =? sep)%N then [] :: split_on sep r
      else
        match split_on sep r with
        | h :: t => (c :: h) :: t
        | [] => [[c]]
        end
  end.

(** The characters [str.isspace] accepts. *)
Definition is_space (c : pychar) : bool :=
  ((9 <=? c) && (c <=? 13) || (28 <=? c) && (c <=? 32)
   || (c =? 133) || (c =? 160) || (c =? 5760)
   || (8192 <=? c) && (c <=? 8202)
   || (c =? 8232) || (c =? 8233) || (c =? 8239) || (c =? 8287)
   || (c =? 12288))%N.

Fixpoint lstrip (s : pystr) : pystr :=
  match s with
  | c :: r => if is_space c then lstrip r else s
  | [] => []
  end.

(** [s.strip()]. *)
Definition strip (s : pystr) : pystr := rev (lstrip (rev (lstrip s))).

(** The optional fourth segment. *)
Definition parse_taxv (rest : list pystr) : taxval :=
  match rest with
  | s3 :: _ =>
      if nonempty s3 then
        match py_float s3 with
        | Some r => TaxRate r
        | None => TaxNone
        end
      else TaxNone
  | [] => TaxNone
  end.

(** [qv = float(qty); uv = float(unit)] under one [try]. *)
Definition parse_qty_unit (q u : pystr) : float * float :=
  match py_float q with
  | Some qv =>
      match py_float u with
      | Some uv => (qv, uv)
      | None => (0%float, 0%float)
      end
  | None => (0%float, 0%float)
  end.

(** The items one [;]-separated part contributes. *)
Definition parse_part (part : pystr) : list item :=
  let part := strip part in
  if nonempty part then
    let segs := map strip (split_on pipe part) in
    match segs with
    | d :: q :: u :: rest =>
        let t := parse_taxv rest in
        let '(qv, uv) := parse_qty_unit q u in
        [mkItem d qv uv t]
    | _ => []
    end
  else [].

(** The [items] list built from the cell [items_raw]. *)
Definition batch_items (items_raw : pystr) : list item :=
  if nonempty items_raw
  then flat_map parse_part (split_on semicolon items_raw)
  else [].

End Render.

(** ** Intake of the form in the single-invoice route: [generate_single] *)

Section Single.

(** The builtin [float] on a string; [None] stands for [ValueError]. *)
Variable py_float : pystr -> option float.

(** [float(q or 0)] for a form value [q]. *)
Definition float_or_zero (q : pystr) : option float :=
  if nonempty q then py_float q else Some 0%float.

(** [for d, q, u in zip(descs, qtys, units)]: rows without a description
    are skipped, a failed conversion zeroes both numbers, and no row
    carries a tax rate of its own. *)
Fixpoint single_items (descs qtys units : list pystr) : list item :=
  match descs, qtys, units with
  | d :: descs', q :: qtys', u :: units' =>
      if nonempty d then
        let '(qv, uv) := parse_qty_unit float_or_zero q u in
        mkItem d qv uv TaxNone :: single_items descs' qtys' units'
      else single_items descs' qtys' units'
  | _, _, _ => []
  end.

End Single.

(** ** Font registration: [_register_jp_font] *)

Definition FALLBACK_FONT : pystr := utf8 "Helvetica".

Section Fonts.

(** [os.path.exists]. *)
Variable path_exists : pystr -> bool.
(** Whether [pdfmetrics.registerFont(TTFont(name, path))] returns rather
    than raises. *)
Variable register_ttf : pystr -> pystr -> bool.
(** Whether registering the CID font ["HeiseiKakuGo-W5"] succeeds. *)
Variable register_cid : bool.
(** [os.path.splitext(os.path.basename(path))[0]]. *)
Variable stem : pystr -> pystr.
(** [os.path.join(base, "fonts", name)]. *)
Variable fonts_path : pystr -> pystr.

(** The list [candidates]; [env_font] is [os.environ.get("FONT_TTF")]. *)
Definition candidates (env_font : option pystr) : list pystr :=
  match env_font with
  | Some f => if nonempty f then [f] else []
  | None => []
  end
  ++ [fonts_path (utf8 "NotoSansJP-Regular.ttf");
      fonts_path (utf8 "NotoSansCJKjp-Regular.otf");
      fonts_path (utf8 "NotoSansCJKjp-Regular.ttf")].

(** [for path in candidates]: the name of the first candidate that exists
    and registers. *)
Fixpoint first_font (paths : list pystr) : option pystr :=
  match paths with
  | [] => None
  | path :: rest =>
      if nonempty path && path_exists path && register_ttf (stem path) path
      then Some (stem path)
      else first_font rest
  end.

(** The value returned, which is also the one left in [JP_FONT_NAME]. *)
Definition register_jp_font (env_font : option pystr) : option pystr :=
  match first_font (candidates env_font) with
  | Some name => Some name
  | None => if register_cid then Some (utf8 "HeiseiKakuGo-W5") else None
  end.

(** [base_font = JP_FONT_NAME or FALLBACK_FONT]. *)
Definition base_font_of (jp_font_name : option pystr) : pystr :=
  match jp_font_name with
  | Some name => if nonempty name then name else FALLBACK_FONT
  | None => FALLBACK_FONT
  end.

End Fonts.

(** * Specification vocabulary *)

(** The running sum [t = 0.0; for x in l: t += x] of a list of floats. *)
Definition fsum (l : list float) : float :=
  fold_left PrimFloat.add l 0%float.

(** The sum of the exact values of a list of finite floats. *)
Definition exact_sum (l : list float) : Q :=
  fold_right Qplus 0 (map float_value l).

(** A list of floats in strictly descending order. *)
Definition descending (l : list float) : Prop :=
  StronglySorted (fun a b => PrimFloat.ltb b a = true) l.

(** A wrapped line is acceptable when it fits, or is one character that
    alone is too wide. *)
Definition line_ok (stringWidth : pystr -> pystr -> Q -> Q)
  (font_name : pystr) (font_size max_width : Q) (l : pystr) : Prop :=
  stringWidth l font_name font_size <= max_width \/
  exists ch, l = [ch] /\ max_width < stringWidth [ch] font_name font_size.

(** A measurer for concrete runs: every character is half as wide as the
    font size. *)
Definition half_em (s font : pystr) (size : Q) : Q :=
  size * inject_Z (Z.of_nat (length s)) * (1 # 2).

(** The characters ["0"] to ["9"]. *)
Definition is_digit (c : pychar) : bool := ((48 <=? c) && (c <=? 57))%N.

(** A digit string without its thousands separators. *)
Definition ungroup (s : pystr) : pystr :=
  filter (fun c => negb (c =? comma)%N) s.

(** The number a digit string denotes. *)
Definition digits_value (s : pystr) : Z :=
  fold_left (fun acc c => (acc * 10 + (Z.of_N c - 48))%Z) s 0%Z.

(** Grouping, read from the least significant digit: groups of exactly
    three digits, each followed by a separator, then a last group of one
    to three digits. *)
Inductive grouped_rev : pystr -> Prop :=
| grouped_1 a : is_digit a = true -> grouped_rev [a]
| grouped_2 a b : is_digit a = true -> is_digit b = true -> grouped_rev [a; b]
| grouped_3 a b c :
    is_digit a = true -> is_digit b = true -> is_digit c = true ->
    grouped_rev [a; b; c]
| grouped_more a b c r :
    is_digit a = true -> is_digit b = true -> is_digit c = true ->
    grouped_rev r -> grouped_rev (a :: b :: c :: comma :: r).

(** The codes offered by the form of the single-invoice route. *)
Definition supported_currencies : list pystr :=
  [utf8 "JPY"; utf8 "USD"; utf8 "EUR"].

(** An invoice with every field absent or empty, and its variants. *)
Definition blank_invoice : invoice :=
  mkInvoice None [] [] [] [] [] [] [] [] [] [] [] None PyNone [] [].

Definition with_tax_rate (r : pyval) (d : invoice) : invoice :=
  mkInvoice (title d) (seller_name d) (seller_address d) (seller_email d)
    (seller_phone d) (buyer_name d) (buyer_address d) (buyer_email d)
    (buyer_phone d) (invoice_no d) (date d) (due_date d) (currency d) r
    (note d) (items d).

Definition with_items (its : list item) (d : invoice) : invoice :=
  mkInvoice (title d) (seller_name d) (seller_address d) (seller_email d)
    (seller_phone d) (buyer_name d) (buyer_address d) (buyer_email d)
    (buyer_phone d) (invoice_no d) (date d) (due_date d) (currency d)
    (tax_rate d) (note d) its.

(** A [str] on floats for concrete runs: one fractional digit. *)
Definition str_float_1 (f : float) : pystr := format_float false 1 f.

(** [FALLBACK_FONT]. *)
Definition helvetica : pystr := utf8 "Helvetica".

Definition with_currency (c : option pystr) (d : invoice) : invoice :=
  mkInvoice (title d) (seller_name d) (seller_address d) (seller_email d)
    (seller_phone d) (buyer_name d) (buyer_address d) (buyer_email d)
    (buyer_phone d) (invoice_no d) (date d) (due_date d) c (tax_rate d)
    (note d) (items d).

(** A [float] for concrete runs: it accepts the non-empty strings of
    decimal digits only. *)
Definition digits_float (s : pystr) : option float :=
  if nonempty s && forallb is_digit s
  then Some (float_of_Z (digits_value s)) else None.

(** Baseline and text of a text call. *)
Definition instr_y (i : instr) : option Q :=
  match i with
  | DrawString _ y _ | DrawRightString _ y _ => Some y
  | _ => None
  end.

Definition instr_text (i : instr) : option pystr :=
  match i with
  | DrawString _ _ s | DrawRightString _ _ s => Some s
  | _ => None
  end.

(** Every call of the trace is a text call with baseline in [(lo, hi]]. *)
Definition in_band (lo hi : Q) (i : instr) : Prop :=
  match instr_y i with
  | Some y => lo < y /\ y <= hi
  | None => False
  end.

(** The texts of the text calls of a trace, in order. *)
Definition texts (t : list instr) : list pystr :=
  flat_map (fun i => match instr_text i with Some s => [s] | None => [] end) t.

(** The two text calls of the canvas. *)
Definition is_text_draw (draw : Q -> Q -> pystr -> instr) : Prop :=
  draw = DrawString \/ draw = DrawRightString.

(** The dictionary after the items loop, without the drawing. *)
Definition aggregate (default_rate : float) (its : list item)
  (d0 : rate_dict)
  : rate_dict :=
  fold_left
    (fun d it =>
       dict_add (effective_rate default_rate (taxv it)) (item_subtotal it) d)
    its d0.

(** The items whose effective rate equals [k], in the order of the
    list. *)
Definition items_at (default_rate k : float) (its : list item) : list item :=
  filter (fun it => PrimFloat.eqb k (effective_rate default_rate (taxv it)))
    its.

(** Running sum of the subtotals of the items at rate [k], from the value
    [v] already held. *)
Definition bucket_sum (default_rate k : float) (its : list item) (v : float)
  : float :=
  fold_left PrimFloat.add (map item_subtotal (items_at default_rate k its)) v.

(** The dictionary keys are pairwise different. *)
Definition distinct_keys (l : list float) : Prop :=
  ForallOrdPairs (fun a b => PrimFloat.eqb a b = false) l.

(** The four texts the totals print for the bucket of [k]. *)
Definition bucket_texts (cur : pystr) (by_rate : rate_dict) (k : float)
  : list pystr :=
  match pct k with
  | Some percent =>
      [bucket_label percent; money_float cur (dict_get k by_rate);
       tax_label percent; money_float cur (dict_get k by_rate * k)%float]
  | None => []
  end.

(** Greedy packing: each line after [prev] starts with a character that
    did not fit at the end of the line before it. *)
Fixpoint greedy_from (stringWidth : pystr -> pystr -> Q -> Q)
  (font_name : pystr) (font_size max_width : Q)
  (prev : pystr) (ls : list pystr) : Prop :=
  match ls with
  | [] => True
  | l :: rest =>
      (exists c t, l = c :: t /\
         fits stringWidth font_name font_size max_width (prev ++ [c]) = false)
      /\ greedy_from stringWidth font_name font_size max_width l rest
  end.

Definition greedy (stringWidth : pystr -> pystr -> Q -> Q)
  (font_name : pystr) (font_size max_width : Q) (ls : list pystr) : Prop :=
  match ls with
  | [] => True
  | l :: rest => greedy_from stringWidth font_name font_size max_width l rest
  end.

(** A call that is not a text call, or whose baseline is at least [lo]
    (resp. strictly above [lo]). *)
Definition above (lo : Q) (i : instr) : Prop :=
  match instr_y i with
  | Some y => lo <= y
  | None => True
  end.

Definition strictly_above (lo : Q) (i : instr) : Prop :=
  match instr_y i with
  | Some y => lo < y
  | None => True
  end.

(** The tallest row that fits between the cursor of a fresh page
    ([height - margin_y - 40 mm]) and the 40 mm threshold. *)
Definition max_row_height : Q := height - margin_y - 80 * mm.

(** A string with no white space at either end. *)
Definition trimmed (s : pystr) : Prop :=
  (forall c, hd_error s = Some c -> is_space c = false) /\
  (forall c, hd_error (rev s) = Some c -> is_space c = false).

(** The test a font candidate must pass in [_register_jp_font]. *)
Definition usable (path_exists : pystr -> bool)
  (register_ttf : pystr -> pystr -> bool) (stem : pystr -> pystr)
  (path : pystr) : bool :=
  nonempty path && path_exists path && register_ttf (stem path) path.

(** Two items that differ at most in their tax rate. *)
Definition same_row (a b : item) : Prop :=
  desc a = desc b /\ qty a = qty b /\ unit_price a = unit_price b.

(** * Binary64 comparisons: proofs *)

Set Default Proof Using "Type".

Module FloatFacts.

Ltac cmp_cases :=
  repeat match goal with
  | H : context [Z.compare ?a ?b] |- _ =>
      destruct (Z.compare_spec a b); try subst
  | |- context [Z.compare ?a ?b] =>
      destruct (Z.compare_spec a b); try subst
  | H : context [Pos.compare_cont Eq ?a ?b] |- _ =>
      change (Pos.compare_cont Eq a b) with (Pos.compare a b) in H;
      destruct (Pos.compare_spec a b); try subst
  | |- context [Pos.compare_cont Eq ?a ?b] =>
      change (Pos.compare_cont Eq a b) with (Pos.compare a b);
      destruct (Pos.compare_spec a b); try subst
  end.

Ltac sf_crush :=
  simpl in *; try discriminate; try reflexivity;
  cmp_cases; simpl in *; try discriminate; try reflexivity; try lia.

(** The comparison of the specification of binary64 is an order on the
    numbers. *)
Lemma SFcompare_refl (x : spec_float) :
  x <> S754_nan -> SFcompare x x = Some Eq.
Proof.
  destruct x as [s|s| |s m e]; intros H; try congruence;
    try (destruct s; reflexivity).
  simpl. rewrite Z.compare_refl.
  change (Pos.compare_cont Eq m m) with (Pos.compare m m).
  rewrite Pos.compare_refl. now destruct s.
Qed.

Lemma SFcompare_antisym (x y : spec_float) :
  SFcompare y x = option_map CompOpp (SFcompare x y).
Proof.
  destruct x as [s|s| |s m e], y as [s'|s'| |s' m' e'];
    try destruct s; try destruct s'; sf_crush.
Qed.

Lemma SFcompare_trans_lt (x y z : spec_float) :
  SFcompare x y = Some Lt -> SFcompare y z = Some Lt ->
  SFcompare x z = Some Lt.
Proof.
  destruct x as [s|s| |s m e], y as [s'|s'| |s' m' e'],
    z as [s''|s''| |s'' m'' e''];
    try destruct s; try destruct s'; try destruct s'';
    intros H1 H2; sf_crush.
Qed.

Lemma SFcompare_eq_l (x y z : spec_float) :
  SFcompare x y = Some Eq -> SFcompare x z = SFcompare y z.
Proof.
  destruct x as [s|s| |s m e], y as [s'|s'| |s' m' e'],
    z as [s''|s''| |s'' m'' e''];
    try destruct s; try destruct s'; try destruct s'';
    intros H1; sf_crush.
Qed.

Lemma SFcompare_none (x y : spec_float) :
  SFcompare x y = None <-> x = S754_nan \/ y = S754_nan.
Proof.
  destruct x as [s|s| |s m e], y as [s'|s'| |s' m' e']; simpl;
    split; intros H; try discriminate; auto;
    destruct H as [H | H]; discriminate.
Qed.

(** The same facts for the primitive comparisons [==], [<=], [<]. *)
Lemma feqb_sym (a b : float) : PrimFloat.eqb a b = PrimFloat.eqb b a.
Proof.
  rewrite !eqb_spec. unfold SFeqb.
  rewrite (SFcompare_antisym (Prim2SF a) (Prim2SF b)).
  now destruct (SFcompare (Prim2SF a) (Prim2SF b)) as [[| |]|].
Qed.

Lemma feqb_trans_false (k r r' : float) :
  PrimFloat.eqb k r = true -> PrimFloat.eqb k r' = PrimFloat.eqb r r'.
Proof.
  rewrite !eqb_spec. unfold SFeqb. intros H.
  destruct (SFcompare (Prim2SF k) (Prim2SF r)) as [[| |]|] eqn:E;
    try discriminate.
  now rewrite (SFcompare_eq_l _ _ (Prim2SF r') E).
Qed.

Lemma feqb_number (a b : float) :
  PrimFloat.eqb a b = true -> is_number a = true /\ is_number b = true.
Proof.
  intros H. unfold is_number. split.
  - now rewrite (feqb_trans_false a b a H), feqb_sym.
  - now rewrite <- (feqb_trans_false a b b H).
Qed.

Lemma number_not_nan (a : float) :
  is_number a = true <-> Prim2SF a <> S754_nan.
Proof.
  unfold is_number. rewrite eqb_spec. unfold SFeqb. split.
  - intros H E. rewrite E in H. discriminate.
  - intros H. now rewrite SFcompare_refl.
Qed.

Lemma fleb_neq_ltb (x r : float) :
  PrimFloat.leb x r = true -> PrimFloat.eqb x r = false ->
  PrimFloat.ltb x r = true.
Proof.
  rewrite leb_spec, eqb_spec, ltb_spec. unfold SFleb, SFeqb, SFltb.
  now destruct (SFcompare (Prim2SF x) (Prim2SF r)) as [[| |]|].
Qed.

Lemma fleb_false_ltb (x r : float) :
  PrimFloat.leb x r = false ->
  is_number x = true -> is_number r = true ->
  PrimFloat.ltb r x = true.
Proof.
  rewrite leb_spec, ltb_spec, !number_not_nan. unfold SFleb, SFltb.
  intros H Hx Hr. rewrite (SFcompare_antisym (Prim2SF x) (Prim2SF r)).
  destruct (SFcompare (Prim2SF x) (Prim2SF r)) as [[| |]|] eqn:E;
    try discriminate; try reflexivity.
  apply SFcompare_none in E. tauto.
Qed.

Lemma fltb_trans (a b c : float) :
  PrimFloat.ltb a b = true -> PrimFloat.ltb b c = true ->
  PrimFloat.ltb a c = true.
Proof.
  rewrite !ltb_spec. unfold SFltb. intros H1 H2.
  destruct (SFcompare (Prim2SF a) (Prim2SF b)) as [[| |]|] eqn:E1;
    try discriminate.
  destruct (SFcompare (Prim2SF b) (Prim2SF c)) as [[| |]|] eqn:E2;
    try discriminate.
  now rewrite (SFcompare_trans_lt _ _ _ E1 E2).
Qed.

(** A finite float is a number. *)
Lemma finite_number (a : float) : is_finite a = true -> is_number a = true.
Proof.
  unfold is_finite. intros H. apply number_not_nan. intros E.
  rewrite E in H. discriminate.
Qed.

(** Floats that compare equal are the same float, or two zeros. *)
Lemma feqb_cases (a b : float) :
  PrimFloat.eqb a b = true ->
  a = b \/
  exists s s', Prim2SF a = S754_zero s /\ Prim2SF b = S754_zero s'.
Proof.
  rewrite eqb_spec. unfold SFeqb. intros H.
  destruct (Prim2SF a) as [s|s| |s m e] eqn:Ea,
           (Prim2SF b) as [s'|s'| |s' m' e'] eqn:Eb;
    try (right; eexists; eexists; split; reflexivity);
    left; apply Prim2SF_inj; rewrite Ea, Eb;
    try destruct s; try destruct s'; sf_crush.
Qed.

End FloatFacts.

(** * Text wrapping: proofs *)

Section WrapFacts.

Variable stringWidth : pystr -> pystr -> Q -> Q.
Variable font_name : pystr.
Variable font_size : Q.
Variable max_width : Q.

#[local] Abbreviation fitsW :=
  (fits stringWidth font_name font_size max_width).
#[local] Abbreviation loopW :=
  (wrap_loop stringWidth font_name font_size max_width).
#[local] Abbreviation wrapW :=
  (wrap_lines stringWidth font_name font_size max_width).
#[local] Abbreviation okW :=
  (line_ok stringWidth font_name font_size max_width).

Lemma fits_true (s : pystr) :
  fitsW s = true -> stringWidth s font_name font_size <= max_width.
Proof. unfold fits. apply Qle_bool_imp_le. Qed.

Lemma fits_false (s : pystr) :
  fitsW s = false -> max_width < stringWidth s font_name font_size.
Proof.
  unfold fits. intros H. apply Qnot_le_lt. intros Hle.
  apply Qle_bool_iff in Hle. congruence.
Qed.

(** The loop neither drops nor duplicates a character. *)
Lemma wrap_loop_concat (s : pystr) :
  forall lines cur lines' cur',
    loopW s lines cur = (lines', cur') ->
    concat lines' ++ cur' = concat lines ++ cur ++ s.
Proof.
  induction s as [|ch s IH]; intros lines cur lines' cur' H; simpl in H.
  - inversion H; subst. now rewrite List.app_nil_r.
  - destruct (fitsW (cur ++ [ch])).
    + rewrite (IH _ _ _ _ H). now rewrite <- List.app_assoc.
    + rewrite (IH _ _ _ _ H). rewrite concat_app. simpl.
      rewrite List.app_nil_r. now rewrite <- !List.app_assoc.
Qed.

(** Any property of the empty accumulator, of fitting candidates and of
    single characters holds of every line and of the last accumulator. *)
Lemma wrap_loop_lines (P : pystr -> Prop) (s : pystr) :
  (forall t, fitsW t = true -> P t) ->
  (forall ch, P [ch]) ->
  forall lines cur lines' cur',
    loopW s lines cur = (lines', cur') ->
    Forall P lines -> P cur ->
    Forall P lines' /\ P cur'.
Proof.
  intros Hf H1.
  induction s as [|ch s IH]; intros lines cur lines' cur' H Hl Hc;
    simpl in H.
  - inversion H; subst. auto.
  - destruct (fitsW (cur ++ [ch])) eqn:E.
    + apply (IH _ _ _ _ H); auto.
    + apply (IH _ _ _ _ H); auto.
      apply Forall_app; split; auto.
Qed.

Lemma line_ok_single (ch : pychar) : okW [ch].
Proof.
  destruct (fitsW [ch]) eqn:E.
  - left. now apply fits_true.
  - right. exists ch. split; [reflexivity | now apply fits_false].
Qed.

(** The result in terms of the state the loop ends in. *)
Lemma wrap_lines_cases (s : pystr) :
  forall lines cur,
    loopW s [] [] = (lines, cur) ->
    (cur = [] /\ lines = [] /\ wrapW s = [[]]) \/
    (cur = [] /\ lines <> [] /\ wrapW s = lines) \/
    (cur <> [] /\ wrapW s = lines ++ [cur]).
Proof.
  intros lines cur H. unfold wrap_lines. rewrite H.
  destruct cur as [|c cur]; simpl.
  - destruct lines; [left | right; left]; repeat split; congruence.
  - right; right. split; [congruence|].
    destruct lines; reflexivity.
Qed.

Lemma wrap_lines_nonempty (s : pystr) : wrapW s <> [].
Proof.
  destruct (loopW s [] []) as [lines cur] eqn:E.
  destruct (wrap_lines_cases s _ _ E)
    as [(_ & _ & ->) | [(_ & Hl & ->) | (_ & ->)]];
    [discriminate | assumption | now destruct lines].
Qed.

Lemma wrap_lines_concat (s : pystr) : concat (wrapW s) = s.
Proof.
  destruct (loopW s [] []) as [lines cur] eqn:E.
  pose proof (wrap_loop_concat s _ _ _ _ E) as H. simpl in H.
  destruct (wrap_lines_cases s _ _ E)
    as [(-> & -> & ->) | [(-> & _ & ->) | (_ & ->)]].
  - simpl in *. congruence.
  - now rewrite List.app_nil_r in H.
  - rewrite concat_app. simpl. now rewrite List.app_nil_r.
Qed.

Lemma wrap_lines_ok (s : pystr) :
  stringWidth [] font_name font_size <= max_width ->
  Forall okW (wrapW s).
Proof.
  intros Hnil.
  assert (Hemp : okW []) by now left.
  destruct (loopW s [] []) as [lines cur] eqn:E.
  destruct (wrap_loop_lines okW s
              (fun t Ht => or_introl (fits_true t Ht)) line_ok_single
              _ _ _ _ E (Forall_nil _) Hemp) as [Hl Hc].
  destruct (wrap_lines_cases s _ _ E)
    as [(_ & _ & ->) | [(_ & _ & ->) | (_ & ->)]]; auto.
  apply Forall_app; split; auto.
Qed.

(** *** C3 *)

(** C3. For every string [s] and every width [w > 0] (with a measurer that
    gives the empty string width 0), [wrap_lines] returns a non-empty list
    of lines whose concatenation is exactly [s]; every line fitsW in [w]
    unless it is a single character that alone is wider than [w]; and the
    empty string wraps to exactly one empty line. *)
Theorem wrap_lines_spec (s : pystr)
  (Hw : 0 < max_width)
  (Hempty : stringWidth [] font_name font_size == 0) :
  wrapW s <> [] /\
  concat (wrapW s) = s /\
  Forall okW (wrapW s) /\
  wrapW [] = [[]].
Proof.
  split; [apply wrap_lines_nonempty|].
  split; [apply wrap_lines_concat|].
  split; [|reflexivity].
  apply wrap_lines_ok. rewrite Hempty. now apply Qlt_le_weak.
Qed.

(** *** C4 *)

(** C4 (behaviour of the code). A one-character string whose character
    alone is wider than the maximum width wraps to TWO lines: the empty
    accumulator is emitted first, then the character. *)
Theorem wrap_lines_wide_char (ch : pychar)
  (Hwide : max_width < stringWidth [ch] font_name font_size) :
  wrapW [ch] = [[]; [ch]].
Proof.
  unfold wrap_lines. simpl.
  assert (E : fitsW [ch] = false).
  { destruct (fitsW [ch]) eqn:E; auto.
    apply fits_true in E. exfalso. eapply Qlt_not_le; eauto. }
  now rewrite E.
Qed.

End WrapFacts.

Lemma wrap_lines_spec_witness :
  let s := utf8 "hello" in
  wrap_lines half_em [] 10 12 s = [utf8 "he"; utf8 "ll"; utf8 "o"] /\
  (wrap_lines half_em [] 10 12 s <> [] /\
   concat (wrap_lines half_em [] 10 12 s) = s /\
   Forall (line_ok half_em [] 10 12) (wrap_lines half_em [] 10 12 s) /\
   wrap_lines half_em [] 10 12 [] = [[]]).
Proof.
  split; [vm_compute; reflexivity|].
  apply (wrap_lines_spec half_em [] 10 12 (utf8 "hello")).
  - reflexivity.
  - reflexivity.
Defined.

Lemma wrap_lines_wide_char_witness :
  wrap_lines half_em [] 10 4 (utf8 "W") = [[]; utf8 "W"].
Proof.
  apply (wrap_lines_wide_char half_em [] 10 4 87%N).
  reflexivity.
Defined.

(** * Money formatting: proofs *)

Module MoneyFacts.

Lemma digit_char_is_digit (d : Z) :
  (0 <= d < 10)%Z -> is_digit (digit_char d) = true.
Proof.
  intros H. unfold is_digit, digit_char.
  apply andb_true_iff; split; apply N.leb_le; lia.
Qed.

Lemma digit_char_value (d : Z) :
  (0 <= d)%Z -> (Z.of_N (digit_char d) - 48 = d)%Z.
Proof. intros H. unfold digit_char. lia. Qed.

Lemma digits_value_snoc (l : pystr) (c : pychar) :
  digits_value (l ++ [c]) = (digits_value l * 10 + (Z.of_N c - 48))%Z.
Proof. unfold digits_value. now rewrite fold_left_app. Qed.

Lemma digits_aux_spec (fuel : nat) :
  forall n, (0 <= n < 2 ^ (Z.of_nat fuel + 1))%Z ->
    Forall (fun c => is_digit c = true) (digits_aux fuel n) /\
    digits_value (digits_aux fuel n) = n /\
    digits_aux fuel n <> [].
Proof.
  induction fuel as [|f IH]; intros n Hn.
  - simpl in *. assert (0 <= n < 2)%Z by lia.
    repeat split; try discriminate.
    + constructor; [apply digit_char_is_digit; lia | constructor].
    + unfold digits_value; simpl. rewrite digit_char_value; lia.
  - simpl. destruct (Z.ltb_spec n 10).
    + repeat split; try discriminate.
      * constructor; [apply digit_char_is_digit; lia | constructor].
      * unfold digits_value; simpl. rewrite digit_char_value; lia.
    + assert (Hp : (2 ^ (Z.of_nat (S f) + 1) = 2 * 2 ^ (Z.of_nat f + 1))%Z).
      { rewrite <- Z.pow_succ_r by lia. f_equal. lia. }
      assert (Hd : (0 <= n / 10 < 2 ^ (Z.of_nat f + 1))%Z).
      { split; [apply Z.div_pos; lia|].
        apply Z.div_lt_upper_bound; lia. }
      destruct (IH _ Hd) as (Hdig & Hval & Hne).
      pose proof (Z.mod_pos_bound n 10 ltac:(lia)) as Hm.
      repeat split.
      * apply Forall_app; split; auto.
        constructor; [now apply digit_char_is_digit | constructor].
      * rewrite digits_value_snoc, Hval, digit_char_value by lia.
        pose proof (Z.div_mod n 10 ltac:(lia)). lia.
      * intros E. apply app_eq_nil in E. destruct E; discriminate.
Qed.

Lemma int_digits_spec (n : Z) :
  (0 <= n)%Z ->
  Forall (fun c => is_digit c = true) (int_digits n) /\
  digits_value (int_digits n) = n /\
  int_digits n <> [].
Proof.
  intros Hn. apply digits_aux_spec. split; auto.
  rewrite Z2Nat.id by apply Z.log2_nonneg.
  destruct (Z.eq_dec n 0) as [->|Hz]; [reflexivity|].
  replace (Z.log2 n + 1)%Z with (Z.succ (Z.log2 n)) by lia.
  apply Z.log2_spec. lia.
Qed.

Lemma frac_digits_spec (prec : nat) :
  forall m, (0 <= m < 10 ^ Z.of_nat prec)%Z ->
    length (frac_digits prec m) = prec /\
    Forall (fun c => is_digit c = true) (frac_digits prec m).
Proof.
  induction prec as [|p IH]; intros m Hm; simpl frac_digits.
  - split; constructor.
  - assert (Hp : (10 ^ Z.of_nat (S p) = 10 * 10 ^ Z.of_nat p)%Z).
    { rewrite Nat2Z.inj_succ, Z.pow_succ_r by lia. reflexivity. }
    assert (Hpos : (0 < 10 ^ Z.of_nat p)%Z) by (apply Z.pow_pos_nonneg; lia).
    destruct (IH (m mod 10 ^ Z.of_nat p)%Z) as [Hl Hd].
    { apply Z.mod_pos_bound; lia. }
    split; [simpl; now rewrite Hl|].
    constructor; auto. apply digit_char_is_digit. split.
    + apply Z.div_pos; lia.
    + apply Z.div_lt_upper_bound; lia.
Qed.

(** Induction on lists along the recursion of [chunk3]. *)
Lemma chunk3_ind (P : pystr -> Prop) :
  P [] -> (forall a, P [a]) -> (forall a b, P [a; b]) ->
  (forall a b c, P [a; b; c]) ->
  (forall a b c d r, P (d :: r) -> P (a :: b :: c :: d :: r)) ->
  forall l, P l.
Proof.
  intros H0 H1 H2 H3 H4 l.
  assert (H : forall n l, (length l <= n)%nat -> P l).
  { induction n as [|n IH]; intros [|a [|b [|c [|d r]]]] Hl; auto;
      simpl in Hl; try lia.
    apply H4. apply IH. simpl. lia. }
  apply (H (length l)). lia.
Qed.

Lemma digit_not_comma (c : pychar) :
  is_digit c = true -> (c =? comma)%N = false.
Proof.
  unfold is_digit, comma. intros H. apply andb_true_iff in H.
  destruct H as [H _]. apply N.leb_le in H. apply N.eqb_neq. lia.
Qed.

Lemma chunk3_ungroup (l : pystr) :
  Forall (fun c => is_digit c = true) l -> ungroup (chunk3 l) = l.
Proof.
  unfold ungroup.
  induction l as [|a|a b|a b c|a b c d r IH] using chunk3_ind; intros H.
  - reflexivity.
  - inversion H; subst. simpl. now rewrite digit_not_comma.
  - inversion H as [|? ? Ha H']; inversion H' as [|? ? Hb _]; subst. simpl.
    now rewrite !digit_not_comma.
  - inversion H as [|? ? Ha H']; inversion H' as [|? ? Hb H''];
      inversion H'' as [|? ? Hc _]; subst. simpl.
    now rewrite !digit_not_comma.
  - inversion H as [|? ? Ha H']; inversion H' as [|? ? Hb H''];
      inversion H'' as [|? ? Hc Hrest]; subst.
    change (chunk3 (a :: b :: c :: d :: r))
      with (a :: b :: c :: comma :: chunk3 (d :: r)).
    cbn [filter]. rewrite !digit_not_comma by assumption.
    rewrite N.eqb_refl. cbn [negb]. now rewrite IH.
Qed.

Lemma chunk3_grouped (l : pystr) :
  l <> [] -> Forall (fun c => is_digit c = true) l -> grouped_rev (chunk3 l).
Proof.
  induction l as [|a|a b|a b c|a b c d r IH] using chunk3_ind; intros Hne H.
  - congruence.
  - inversion H; subst. now constructor.
  - inversion H as [|? ? Ha H']; inversion H' as [|? ? Hb _]; subst.
    now constructor.
  - inversion H as [|? ? Ha H']; inversion H' as [|? ? Hb H''];
      inversion H'' as [|? ? Hc _]; subst. now constructor.
  - inversion H as [|? ? Ha H']; inversion H' as [|? ? Hb H''];
      inversion H'' as [|? ? Hc Hrest]; subst.
    change (chunk3 (a :: b :: c :: d :: r))
      with (a :: b :: c :: comma :: chunk3 (d :: r)).
    constructor; auto. apply IH; [discriminate | assumption].
Qed.

Lemma ungroup_rev (s : pystr) : ungroup (rev s) = rev (ungroup s).
Proof. unfold ungroup. apply filter_rev. Qed.

Lemma group_thousands_spec (ds : pystr) :
  ds <> [] -> Forall (fun c => is_digit c = true) ds ->
  ungroup (group_thousands ds) = ds /\
  grouped_rev (rev (group_thousands ds)).
Proof.
  intros Hne Hd. unfold group_thousands.
  assert (Hr : Forall (fun c => is_digit c = true) (rev ds)).
  { apply Forall_forall. intros c Hc. apply in_rev in Hc.
    revert c Hc. now apply Forall_forall. }
  split.
  - now rewrite ungroup_rev, chunk3_ungroup, rev_involutive.
  - rewrite rev_involutive. apply chunk3_grouped; auto.
    intros E. apply Hne. rewrite <- (rev_involutive ds), E. reflexivity.
Qed.

(** Rounding to nearest, ties to even. *)
Lemma round_half_even_spec (q : Q) :
  inject_Z (round_half_even q) - (1 # 2) <= q /\
  q <= inject_Z (round_half_even q) + (1 # 2) /\
  (q - inject_Z (Qfloor q) == 1 # 2 -> Z.even (round_half_even q) = true) /\
  (Qfloor q <= round_half_even q)%Z.
Proof.
  unfold round_half_even.
  pose proof (Qfloor_le q) as Hlo. pose proof (Qlt_floor q) as Hhi.
  rewrite inject_Z_plus in Hhi. change (inject_Z 1) with 1 in Hhi.
  destruct (Qcompare (q - inject_Z (Qfloor q)) (1 # 2)) eqn:E.
  - apply Qeq_alt in E.
    destruct (Z.even (Qfloor q)) eqn:Ev.
    + split; [|split; [|split]]; [| | auto | lia];
        generalize dependent (inject_Z (Qfloor q)); intros x; intros; lra.
    + split; [|split; [|split]].
      * rewrite inject_Z_plus. change (inject_Z 1) with 1.
        generalize dependent (inject_Z (Qfloor q)); intros x; intros; lra.
      * rewrite inject_Z_plus. change (inject_Z 1) with 1.
        generalize dependent (inject_Z (Qfloor q)); intros x; intros; lra.
      * intros _. rewrite Z.even_add, Ev. reflexivity.
      * lia.
  - pose proof E as E'. apply Qlt_alt in E'.
    split; [|split; [|split]].
    + generalize dependent (inject_Z (Qfloor q)); intros x; intros; lra.
    + generalize dependent (inject_Z (Qfloor q)); intros x; intros; lra.
    + intros H. rewrite H in E. discriminate.
    + lia.
  - pose proof E as E'. apply Qgt_alt in E'.
    split; [|split; [|split]].
    + rewrite inject_Z_plus. change (inject_Z 1) with 1.
      generalize dependent (inject_Z (Qfloor q)); intros x; intros; lra.
    + rewrite inject_Z_plus. change (inject_Z 1) with 1.
      generalize dependent (inject_Z (Qfloor q)); intros x; intros; lra.
    + intros H. rewrite H in E. discriminate.
    + lia.
Qed.

End MoneyFacts.

Import MoneyFacts.

Lemma round_half_even_nonneg (q : Q) : 0 <= q -> (0 <= round_half_even q)%Z.
Proof.
  intros Hq. destruct (round_half_even_spec q) as (_ & _ & _ & H).
  assert (0 <= Qfloor q)%Z; [|lia].
  change 0%Z with (Qfloor 0). now apply Qfloor_resp_le.
Qed.

Lemma scaled_abs_nonneg (v : Q) (k : Z) :
  (0 <= k)%Z -> 0 <= Qabs v * inject_Z k.
Proof.
  intros Hk. apply Qmult_le_0_compat; [apply Qabs_nonneg|].
  change 0 with (inject_Z 0). now rewrite <- Zle_Qle.
Qed.

(** *** C6 *)

(** C6. For every amount and currency code, [money] depends on the code
    only through the test "is it JPY": for JPY it renders the yen sign,
    the sign of the amount and the grouped digits of the amount rounded to
    an integer; for every other code it renders the sign, the grouped
    integer digits, a point and exactly two fractional digits, with no
    symbol.  Grouping only inserts separators (removing them gives back the
    digits, which denote the integer part) and places one after every
    three digits counted from the right.  The rounding is to nearest with
    ties to even, for every amount.  1234.5 renders as "1,234.50" under
    USD and as "¥1,234" under JPY.  The text the layout draws for a finite
    float (other than a negative zero) is this rendering of its value. *)
Theorem money_spec (cur : pystr) (v : Q) :
  let sign := if Qlt_bool v 0 then [minus] else [] in
  let n :=
    round_half_even
      (Qabs v * inject_Z (if pystr_eqb cur JPY then 1 else 100)) in
  money cur v =
    (if pystr_eqb cur JPY
     then yen_sign ++ sign ++ group_thousands (int_digits n)
     else sign ++ group_thousands (int_digits (n / 100))
            ++ dot :: frac_digits 2 (n mod 100)) /\
  (0 <= n)%Z /\
  (length (frac_digits 2 (n mod 100)) = 2%nat /\
   Forall (fun c => is_digit c = true) (frac_digits 2 (n mod 100))) /\
  (forall m : N,
     let ds := int_digits (Z.of_N m) in
     Forall (fun c => is_digit c = true) ds /\
     digits_value ds = Z.of_N m /\
     ungroup (group_thousands ds) = ds /\
     grouped_rev (rev (group_thousands ds))) /\
  (forall q : Q,
     inject_Z (round_half_even q) - (1 # 2) <= q /\
     q <= inject_Z (round_half_even q) + (1 # 2) /\
     (q - inject_Z (Qfloor q) == 1 # 2 ->
      Z.even (round_half_even q) = true)) /\
  money (utf8 "USD") (12345 # 10) = utf8 "1,234.50" /\
  money JPY (12345 # 10) = utf8 "¥1,234" /\
  (forall f : float,
     is_finite f = true -> Prim2SF f <> S754_zero true ->
     money_float cur f = money cur (float_value f)).
Proof.
  intros sign n.
  split; [|split; [|split; [|split; [|split; [|split; [|split]]]]]].
  - unfold money, format_fixed. subst n sign.
    destruct (pystr_eqb cur JPY).
    + change (10 ^ Z.of_nat 0)%Z with 1%Z.
      now rewrite Z.div_1_r, List.app_nil_r.
    + change (10 ^ Z.of_nat 2)%Z with 100%Z. reflexivity.
  - subst n. apply round_half_even_nonneg, scaled_abs_nonneg.
    destruct (pystr_eqb cur JPY); lia.
  - apply (frac_digits_spec 2). apply Z.mod_pos_bound. reflexivity.
  - intros m ds. subst ds.
    destruct (int_digits_spec (Z.of_N m) ltac:(lia)) as (Hd & Hv & Hne).
    destruct (group_thousands_spec _ Hne Hd) as [Hu Hg].
    repeat split; assumption.
  - intros q. destruct (round_half_even_spec q) as (H1 & H2 & H3 & _).
    repeat split; assumption.
  - vm_compute. reflexivity.
  - vm_compute. reflexivity.
  - intros f Hfin Hz. unfold money_float, money, format_float, float_value,
      is_finite in *.
    destruct (Prim2SF f) as [[|]|s| |s m e]; try discriminate;
      try congruence; reflexivity.
Qed.

(** *** C7 *)

(** C7 as stated fails: the unrecognized code "XYZ" is not formatted like
    the default code JPY. *)
Lemma unrecognized_currency_counterexample :
  let d := with_currency (Some (utf8 "XYZ")) blank_invoice in
  ~ In (currency_of d) supported_currencies /\
  money (currency_of d) (12345 # 10) = utf8 "1,234.50" /\
  money JPY (12345 # 10) = utf8 "¥1,234" /\
  money (currency_of d) (12345 # 10) <> money JPY (12345 # 10).
Proof.
  cbv zeta. split; [|split; [|split]].
  - vm_compute. intros [H | [H | [H | []]]]; discriminate H.
  - vm_compute. reflexivity.
  - vm_compute. reflexivity.
  - vm_compute. discriminate.
Qed.

(** C7 (amended). The code that controls formatting is the record's code,
    or JPY when the record has none.  An absent code formats as JPY; a
    code that is present formats as JPY exactly when it is "JPY", and every
    other code, in the form's list or not, is formatted with two
    fractional digits and no symbol. *)
Theorem currency_default_spec (d : invoice) (v : Q) :
  match currency d with
  | None =>
      currency_of d = JPY /\ money (currency_of d) v = money JPY v
  | Some c =>
      currency_of d = c /\
      money (currency_of d) v =
        (if pystr_eqb c JPY then yen_sign ++ format_fixed true 0 v
         else format_fixed true 2 v)
  end.
Proof.
  unfold currency_of. destruct (currency d) as [c|]; simpl.
  - split; [reflexivity|]. unfold money. now destruct (pystr_eqb c JPY).
  - split; reflexivity.
Qed.

(** * Batch intake: proofs *)

Section BatchFacts.

Variable py_float : pystr -> option float.

Lemma parse_part_segments (part : pystr) :
  parse_part py_float part =
    match map strip (split_on pipe (strip part)) with
    | d :: q :: u :: rest =>
        [mkItem d (fst (parse_qty_unit py_float q u))
           (snd (parse_qty_unit py_float q u)) (parse_taxv py_float rest)]
    | _ => []
    end.
Proof.
  unfold parse_part. destruct (strip part) as [|c s] eqn:E; simpl nonempty.
  - reflexivity.
  - cbv iota.
    destruct (map strip (split_on pipe (c :: s))) as [|d [|q [|u rest]]];
      try reflexivity.
    now destruct (parse_qty_unit py_float q u).
Qed.

Lemma batch_items_flat_map (items_raw : pystr) :
  batch_items py_float items_raw =
    flat_map (parse_part py_float) (split_on semicolon items_raw).
Proof.
  unfold batch_items. destruct items_raw; reflexivity.
Qed.

(** *** C10 *)

(** C10. In the batch route the items of a cell are the items of its
    [;]-separated parts, in order.  A part with fewer than three
    [|]-separated segments yields no item.  A part with at least three
    yields one item whose quantity and unit price are both 0 as soon as
    either segment fails to convert (even when the other converts), and
    the converted values otherwise.  A fourth segment that is non-empty but
    fails to convert leaves the override absent, so the item's effective
    rate is the invoice default rate. *)
Theorem batch_items_spec (items_raw part : pystr) (default_rate : float) :
  batch_items py_float items_raw =
    flat_map (parse_part py_float) (split_on semicolon items_raw) /\
  ((length (split_on pipe (strip part)) < 3)%nat ->
   parse_part py_float part = []) /\
  (forall d q u rest,
     map strip (split_on pipe (strip part)) = d :: q :: u :: rest ->
     exists it,
       parse_part py_float part = [it] /\ desc it = d /\
       (py_float q = None \/ py_float u = None ->
        qty it = 0%float /\ unit_price it = 0%float) /\
       (forall qv uv, py_float q = Some qv -> py_float u = Some uv ->
        qty it = qv /\ unit_price it = uv) /\
       (forall s3 rest', rest = s3 :: rest' -> s3 <> [] ->
        py_float s3 = None ->
        taxv it = TaxNone /\
        effective_rate default_rate (taxv it) = default_rate)).
Proof.
  split; [apply batch_items_flat_map|]. split.
  - intros Hlen. rewrite parse_part_segments.
    rewrite <- (length_map strip) in Hlen.
    destruct (map strip (split_on pipe (strip part))) as [|d [|q [|u rest]]];
      try reflexivity.
    simpl in Hlen. lia.
  - intros d q u rest Hsegs. rewrite parse_part_segments, Hsegs.
    eexists. split; [reflexivity|]. simpl. split; [reflexivity|].
    unfold parse_qty_unit. split; [|split].
    + intros [Hq | Hu].
      * now rewrite Hq.
      * rewrite Hu. now destruct (py_float q).
    + intros qv uv Hq Hu. now rewrite Hq, Hu.
    + intros s3 rest' -> Hne Hs3. unfold parse_taxv.
      destruct s3 as [|c s3]; [congruence|]. simpl nonempty. cbv iota.
      rewrite Hs3. split; reflexivity.
Qed.

End BatchFacts.

Example batch_items_example :
  batch_items digits_float (utf8 "a|1|2; b|3 ;; c|x|4|7|zz; d|5|6|oops")
  = [mkItem (utf8 "a") 1%float 2%float TaxNone;
     mkItem (utf8 "c") 0%float 0%float (TaxRate 7%float);
     mkItem (utf8 "d") 5%float 6%float TaxNone].
Proof. vm_compute. reflexivity. Qed.

(** * Item rows: proofs *)

Lemma text_draw_left : is_text_draw DrawString.
Proof. now left. Qed.

Lemma text_draw_right : is_text_draw DrawRightString.
Proof. now right. Qed.

#[local] Hint Resolve text_draw_left text_draw_right : core.

Lemma pages_app (t1 t2 : list instr) :
  pages (t1 ++ t2) = (pages t1 + pages t2)%nat.
Proof. unfold pages. now rewrite filter_app, length_app. Qed.

Lemma texts_app (t1 t2 : list instr) :
  texts (t1 ++ t2) = texts t1 ++ texts t2.
Proof. unfold texts. apply flat_map_app. Qed.

Section RowFacts.

Variable stringWidth : pystr -> pystr -> Q -> Q.
Variable str_float : float -> pystr.
Variable base_font : pystr.

#[local] Abbreviation draw_rowR := (draw_row stringWidth str_float base_font).
#[local] Abbreviation row_heightR :=
  (row_height stringWidth str_float base_font).
#[local] Abbreviation max_linesR := (max_lines stringWidth str_float base_font).
#[local] Abbreviation row_topR := (row_top stringWidth str_float base_font).
#[local] Abbreviation overflowsR :=
  (overflows stringWidth str_float base_font).
#[local] Abbreviation item_stepR :=
  (item_step stringWidth str_float base_font).
#[local] Abbreviation items_loopR :=
  (items_loop stringWidth str_float base_font).
#[local] Abbreviation desc_linesR := (desc_lines stringWidth base_font).
#[local] Abbreviation qty_linesR := (qty_lines stringWidth str_float base_font).
#[local] Abbreviation unit_linesR := (unit_lines stringWidth base_font).
#[local] Abbreviation sub_linesR := (sub_lines stringWidth base_font).

Lemma draw_lines_pages draw x step lines :
  is_text_draw draw ->
  forall y, pages (fst (draw_lines draw x y step lines)) = 0%nat.
Proof.
  intros Hd. induction lines as [|ln rest IH]; intros y; simpl; auto.
  specialize (IH (y - step)).
  destruct (draw_lines draw x (y - step) step rest) as [t y'].
  simpl in *. unfold pages in *. simpl.
  destruct Hd as [-> | ->]; simpl; exact IH.
Qed.

Lemma draw_lines_texts draw x step lines :
  is_text_draw draw ->
  forall y, texts (fst (draw_lines draw x y step lines)) = lines.
Proof.
  intros Hd. induction lines as [|ln rest IH]; intros y; simpl; auto.
  specialize (IH (y - step)).
  destruct (draw_lines draw x (y - step) step rest) as [t y'].
  simpl in *. destruct Hd as [-> | ->]; simpl; now rewrite IH.
Qed.

Lemma in_band_weaken lo lo' hi hi' i :
  lo' <= lo -> hi <= hi' -> in_band lo hi i -> in_band lo' hi' i.
Proof.
  unfold in_band. destruct (instr_y i); auto.
  intros H1 H2 [H3 H4]. split.
  - eapply Qle_lt_trans; eauto.
  - eapply Qle_trans; eauto.
Qed.

(** [n] lines drawn from [y] with a positive step stay within [n] steps
    below [y]. *)
Lemma draw_lines_band draw x step lines :
  is_text_draw draw -> 0 < step ->
  forall y,
    Forall (in_band (y - inject_Z (Z.of_nat (length lines)) * step) y)
      (fst (draw_lines draw x y step lines)).
Proof.
  intros Hd Hs. induction lines as [|ln rest IH]; intros y.
  - constructor.
  - cbn [draw_lines]. specialize (IH (y - step)).
    destruct (draw_lines draw x (y - step) step rest) as [t y'].
    cbn [fst] in *.
    assert (Hn : inject_Z (Z.of_nat (length (ln :: rest)))
                 == inject_Z (Z.of_nat (length rest)) + 1).
    { cbn [length]. rewrite Nat2Z.inj_succ. unfold Z.succ.
      now rewrite inject_Z_plus. }
    assert (Hk : 0 <= inject_Z (Z.of_nat (length rest))).
    { change 0 with (inject_Z 0). rewrite <- Zle_Qle. lia. }
    assert (Hks : 0 <= inject_Z (Z.of_nat (length rest)) * step).
    { apply Qmult_le_0_compat; auto. now apply Qlt_le_weak. }
    constructor.
    + unfold in_band.
      assert (E : instr_y (draw x y ln) = Some y)
        by (destruct Hd as [-> | ->]; reflexivity).
      rewrite E. split; [|apply Qle_refl].
      rewrite Hn. generalize dependent (inject_Z (Z.of_nat (length rest))).
      intros k; intros. nra.
    + eapply Forall_impl; [|exact IH].
      intros i. apply in_band_weaken.
      * rewrite Hn. generalize dependent (inject_Z (Z.of_nat (length rest))).
        intros k; intros. nra.
      * lra.
Qed.

Lemma draw_lines_band_le draw x step lines (n : nat) :
  is_text_draw draw -> 0 < step -> (length lines <= n)%nat ->
  forall y,
    Forall (in_band (y - inject_Z (Z.of_nat n) * step) y)
      (fst (draw_lines draw x y step lines)).
Proof.
  intros Hd Hs Hn y.
  eapply Forall_impl; [|apply (draw_lines_band draw x step lines Hd Hs y)].
  intros i. apply in_band_weaken; [|apply Qle_refl].
  assert (H : inject_Z (Z.of_nat (length lines)) <= inject_Z (Z.of_nat n)).
  { rewrite <- Zle_Qle. lia. }
  generalize dependent (inject_Z (Z.of_nat (length lines))).
  generalize (inject_Z (Z.of_nat n)). intros a b Hab. nra.
Qed.

Lemma draw_row_pages cur it y : pages (draw_rowR cur it y) = 0%nat.
Proof.
  unfold draw_row. rewrite !pages_app.
  now rewrite !draw_lines_pages by auto.
Qed.

Lemma draw_row_texts cur it y :
  texts (draw_rowR cur it y) =
    desc_linesR it ++ qty_linesR it ++ unit_linesR cur it ++ sub_linesR cur it.
Proof.
  unfold draw_row. rewrite !texts_app.
  now rewrite !draw_lines_texts by auto.
Qed.

Lemma line_h_pos : 0 < line_h.
Proof. reflexivity. Qed.

Lemma draw_row_band cur it y :
  Forall (in_band (y - row_heightR cur it) y) (draw_rowR cur it y).
Proof.
  unfold draw_row, row_height, max_lines.
  repeat (apply Forall_app; split);
    apply draw_lines_band_le; auto using line_h_pos; lia.
Qed.

(** *** C5 *)

(** C5. For every item the row height is the line height times the
    largest of the line counts of its four wrapped fields (so three lines
    of description against one line in each other column give three line
    heights); the cursor moves down by exactly that height; and the row
    consists of exactly the wrapped lines of the four fields, each drawn
    with its baseline inside the band of that one row. *)
Theorem row_height_spec (cur : pystr) (default_rate : float) (it : item)
  (row_y : Q) (by_rate : rate_dict) :
  let nd := length (wrap_lines stringWidth base_font 10 w_desc (desc it)) in
  let nq := length (wrap_lines stringWidth base_font 10 w_qty
                      (str_float (qty it))) in
  let nu := length (wrap_lines stringWidth base_font 10 w_unit
                      (money_float cur (unit_price it))) in
  let ns := length (wrap_lines stringWidth base_font 10 w_sub
                      (money_float cur
                         (qty it * unit_price it)%float)) in
  let top := row_topR cur it row_y in
  row_heightR cur it
    == line_h * inject_Z (Z.of_nat (Nat.max (Nat.max (Nat.max nd nq) nu) ns))
  /\ (nd = 3%nat -> nq = 1%nat -> nu = 1%nat -> ns = 1%nat ->
      row_heightR cur it == 3 * line_h)
  /\ snd (fst (item_stepR cur default_rate it row_y by_rate))
       == top - row_heightR cur it
  /\ texts (draw_rowR cur it top)
       = desc_linesR it ++ qty_linesR it
           ++ unit_linesR cur it ++ sub_linesR cur it
  /\ Forall (in_band (top - row_heightR cur it) top) (draw_rowR cur it top).
Proof.
  intros nd nq nu ns top.
  split; [|split; [|split; [|split]]].
  - unfold row_height, max_lines. apply Qmult_comm.
  - intros Hd Hq Hu Hs. unfold row_height, max_lines.
    fold nd. unfold qty_lines, unit_lines, sub_lines, wrap_lines_right,
      item_subtotal, desc_lines, wrap.
    fold nd nq nu ns. rewrite Hd, Hq, Hu, Hs. reflexivity.
  - reflexivity.
  - apply draw_row_texts.
  - apply draw_row_band.
Qed.

Lemma items_loop_pages cur default_rate its :
  forall row_y by_rate,
    (pages (fst (fst (items_loopR cur default_rate its row_y by_rate)))
     <= length its)%nat.
Proof.
  induction its as [|it rest IH]; intros row_y by_rate; simpl; auto.
  specialize (IH (row_topR cur it row_y - row_heightR cur it)
                (dict_add (effective_rate default_rate (taxv it))
                   (item_subtotal it) by_rate)).
  destruct (items_loopR cur default_rate rest _ _) as [[t2 y2] d2].
  cbn [fst] in *.
  change (pages (SetFont base_font 10 :: ?l)) with (pages l).
  rewrite !pages_app, draw_row_pages.
  destruct (overflowsR cur it row_y).
  - change (pages (page_break base_font)) with 1%nat. lia.
  - change (pages []) with 0%nat. lia.
Qed.

(** The loop over a list is the loop over its front, then the loop over
    its back from the cursor and the buckets the front left. *)
Lemma items_loop_app cur default_rate l1 l2 :
  forall row_y by_rate,
    let before := items_loopR cur default_rate l1 row_y by_rate in
    let after :=
      items_loopR cur default_rate l2 (snd (fst before)) (snd before) in
    items_loopR cur default_rate (l1 ++ l2) row_y by_rate
    = (fst (fst before) ++ fst (fst after), snd (fst after), snd after).
Proof.
  induction l1 as [|it rest IH]; intros row_y by_rate; cbn zeta.
  - simpl. now destruct (items_loopR cur default_rate l2 row_y by_rate)
      as [[t y] d].
  - cbn [app items_loop].
    destruct (item_stepR cur default_rate it row_y by_rate) as [[t1 y1] d1].
    rewrite IH.
    destruct (items_loopR cur default_rate rest y1 d1) as [[t2 y2] d2].
    cbn [fst snd]. now rewrite <- List.app_assoc.
Qed.

(** *** C2 *)

(** C2. For every item of the table, wherever it stands in the list: when
    the loop reaches it, the code tests whether the cursor left by the
    items before it, minus the row height, is below 40 mm.  When it is,
    exactly one page break is emitted between the calls of the items
    before and the row: the page is closed, the Items heading is drawn at
    12 mm below the top margin of the new page and the row is drawn from
    40 mm below the top margin; when it is not, no break is emitted and
    the row is drawn at the cursor.  The row itself, which holds all wrapped
    lines of the item, contains no page break, so the test is made once per
    item and never between its lines; the items after it continue from the
    cursor below the row.  A table emits at most one break per item. *)
Theorem page_break_per_item (cur : pystr) (default_rate : float)
  (pre : list item) (it : item) (post : list item)
  (row_y : Q) (by_rate : rate_dict) :
  let before := items_loopR cur default_rate pre row_y by_rate in
  let y := snd (fst before) in
  let crosses := Qlt_bool (y - row_heightR cur it) (40 * mm) in
  let top := if crosses then height - margin_y - 40 * mm else y in
  let row :=
    SetFont base_font 10
      :: (if crosses
          then [ShowPage;
                SetFont base_font 11;
                DrawString margin_x (height - margin_y - 12 * mm)
                  (utf8 "明細 / Items");
                SetFont base_font 10]
          else [])
      ++ draw_rowR cur it top in
  let after :=
    items_loopR cur default_rate post (top - row_heightR cur it)
      (dict_add (effective_rate default_rate (taxv it)) (item_subtotal it)
         (snd before)) in
  let whole :=
    items_loopR cur default_rate (pre ++ it :: post) row_y by_rate in
  (crosses = true <-> y - row_heightR cur it < 40 * mm) /\
  fst (fst (item_stepR cur default_rate it y (snd before))) = row /\
  fst (fst whole) = fst (fst before) ++ row ++ fst (fst after) /\
  snd (fst whole) = snd (fst after) /\
  pages row = (if crosses then 1 else 0)%nat /\
  pages (fst (fst whole))
  = (pages (fst (fst before)) + (if crosses then 1 else 0)
     + pages (fst (fst after)))%nat /\
  (forall y',
     pages (draw_rowR cur it y') = 0%nat /\
     texts (draw_rowR cur it y')
       = desc_linesR it ++ qty_linesR it
           ++ unit_linesR cur it ++ sub_linesR cur it) /\
  (pages (fst (fst whole)) <= length (pre ++ it :: post))%nat.
Proof.
  intros before y crosses top row after whole.
  assert (Hstep : item_stepR cur default_rate it y (snd before)
                  = (row, top - row_heightR cur it,
                     dict_add (effective_rate default_rate (taxv it))
                       (item_subtotal it) (snd before))).
  { unfold item_step, row_top, overflows. fold crosses.
    subst row top. now destruct crosses. }
  assert (Hrow : pages row = (if crosses then 1 else 0)%nat).
  { subst row.
    change (pages (SetFont base_font 10 :: ?l)) with (pages l).
    rewrite pages_app, draw_row_pages. now destruct crosses. }
  assert (Hwhole : whole
                   = (fst (fst before) ++ row ++ fst (fst after),
                      snd (fst after), snd after)).
  { subst whole. rewrite items_loop_app. cbn zeta. fold before.
    cbn [items_loop]. fold y. rewrite Hstep. fold after.
    destruct after as [[t2 y2] d2]. reflexivity. }
  split; [|split; [|split; [|split; [|split; [|split; [|split]]]]]].
  - subst crosses. unfold Qlt_bool. rewrite negb_true_iff.
    split.
    + intros H. apply Qnot_le_lt. intros Hle.
      apply Qle_bool_iff in Hle. congruence.
    + intros H. destruct (Qle_bool (40 * mm) (y - row_heightR cur it))
        eqn:E; auto.
      apply Qle_bool_iff in E. exfalso. eapply Qlt_not_le; eauto.
  - now rewrite Hstep.
  - now rewrite Hwhole.
  - now rewrite Hwhole.
  - exact Hrow.
  - rewrite Hwhole. cbn [fst]. rewrite !pages_app, Hrow. lia.
  - intros y'. split; [apply draw_row_pages | apply draw_row_texts].
  - apply items_loop_pages.
Qed.

End RowFacts.

(** * Tax aggregation: proofs *)

Module TaxFacts.

Import FloatFacts.

(** **** The dictionary *)

Lemma dict_get_add (r s r' : float) (d : rate_dict) :
  dict_get r' (dict_add r s d)
  = if PrimFloat.eqb r r' then (dict_get r' d + s)%float else dict_get r' d.
Proof.
  induction d as [|[k v] d IH]; simpl.
  - now destruct (PrimFloat.eqb r r').
  - destruct (PrimFloat.eqb k r) eqn:Ekr; simpl.
    + rewrite <- (feqb_trans_false k r r' Ekr).
      now destruct (PrimFloat.eqb k r').
    + destruct (PrimFloat.eqb k r') eqn:Ekr'; [|exact IH].
      assert (E : PrimFloat.eqb r r' = false).
      { rewrite feqb_sym, <- (feqb_trans_false k r' r Ekr'). exact Ekr. }
      now rewrite E.
Qed.

Lemma dict_keys_add (r s : float) (d : rate_dict) :
  dict_keys (dict_add r s d)
  = dict_keys d
    ++ (if existsb (fun k => PrimFloat.eqb k r) (dict_keys d)
        then [] else [r]).
Proof.
  unfold dict_keys.
  induction d as [|[k v] d IH]; simpl; auto.
  destruct (PrimFloat.eqb k r); simpl.
  - now rewrite List.app_nil_r.
  - now rewrite IH.
Qed.

Lemma distinct_keys_snoc (l : list float) (r : float) :
  distinct_keys l -> Forall (fun k => PrimFloat.eqb k r = false) l ->
  distinct_keys (l ++ [r]).
Proof.
  unfold distinct_keys. induction 1 as [|a l Ha Hl IH]; simpl; intros Hr.
  - repeat constructor.
  - inversion Hr; subst. constructor; [|now apply IH].
    apply Forall_app. split; auto.
Qed.

Lemma dict_keys_add_distinct (r s : float) (d : rate_dict) :
  distinct_keys (dict_keys d) -> distinct_keys (dict_keys (dict_add r s d)).
Proof.
  intros H. rewrite dict_keys_add.
  destruct (existsb (fun k => PrimFloat.eqb k r) (dict_keys d)) eqn:E.
  - now rewrite List.app_nil_r.
  - apply distinct_keys_snoc; auto.
    apply Forall_forall. intros k Hk.
    destruct (PrimFloat.eqb k r) eqn:Ek; auto.
    assert (existsb (fun k => PrimFloat.eqb k r) (dict_keys d) = true)
      by (apply existsb_exists; eauto).
    congruence.
Qed.

(** **** The descending sort *)

Lemma insert_desc_perm (r : float) (l : list float) :
  Permutation (insert_desc r l) (r :: l).
Proof.
  induction l as [|x l IH]; simpl; auto.
  destruct (PrimFloat.leb x r); auto.
  rewrite IH. apply perm_swap.
Qed.

Lemma sorted_desc_perm (l : list float) : Permutation (sorted_desc l) l.
Proof.
  induction l as [|x l IH]; simpl; auto.
  rewrite insert_desc_perm. now constructor.
Qed.

Lemma insert_desc_sorted (r : float) (l : list float) :
  descending l ->
  is_number r = true ->
  Forall (fun x => is_number x = true /\ PrimFloat.eqb x r = false) l ->
  descending (insert_desc r l).
Proof.
  unfold descending.
  induction l as [|x l IH]; simpl; intros Hs Hr Hl.
  - constructor; constructor.
  - inversion Hs as [|? ? Hsl Hx]; subst.
    inversion Hl as [|? ? [Hnx Hne] Hl']; subst.
    destruct (PrimFloat.leb x r) eqn:E.
    + assert (Hlt : PrimFloat.ltb x r = true) by now apply fleb_neq_ltb.
      constructor; [exact Hs|].
      constructor; [exact Hlt|].
      eapply Forall_impl; [|exact Hx]. intros a Ha.
      exact (fltb_trans _ _ _ Ha Hlt).
    + assert (Hlt : PrimFloat.ltb r x = true) by now apply fleb_false_ltb.
      constructor; [now apply IH|].
      apply Forall_forall. intros a Ha.
      apply (Permutation_in _ (insert_desc_perm r l)) in Ha.
      destruct Ha as [<- | Ha]; auto.
      revert a Ha. now apply Forall_forall.
Qed.

Lemma sorted_desc_sorted (l : list float) :
  distinct_keys l -> Forall (fun x => is_number x = true) l ->
  descending (sorted_desc l).
Proof.
  unfold distinct_keys.
  induction 1 as [|x l Hx Hl IH]; simpl; intros Hn.
  - constructor.
  - inversion Hn as [|? ? Hnx Hnl]; subst.
    apply insert_desc_sorted; auto.
    apply Forall_forall. intros y Hy.
    apply (Permutation_in _ (sorted_desc_perm l)) in Hy. split.
    + revert y Hy. now apply Forall_forall.
    + rewrite feqb_sym. revert y Hy. now apply Forall_forall.
Qed.

(** **** The label of a bucket *)

(** A rate whose label is defined is a number. *)
Lemma pct_number (k : float) : pct k <> None -> is_number k = true.
Proof.
  unfold pct, int_of_float, is_finite. rewrite mul_spec.
  intros H. apply number_not_nan. intros E. rewrite E in H.
  now apply H.
Qed.

(** Rates that compare equal carry the same label. *)
Lemma pct_eqb (k r : float) :
  PrimFloat.eqb k r = true -> pct k = pct r.
Proof.
  intros H. destruct (feqb_cases k r H) as [E | (s & s' & Ek & Er)].
  - now rewrite E.
  - unfold pct, int_of_float, is_finite, float_value.
    rewrite !mul_spec, Ek, Er. now destruct s, s'.
Qed.

End TaxFacts.

(** * The whole pass: proofs *)

Section RenderFacts.

Variable stringWidth : pystr -> pystr -> Q -> Q.
Variable py_float : pystr -> option float.
Variable str_float : float -> pystr.
Variable base_font : pystr.
Variable logo : logo_status.

#[local] Abbreviation items_loopF :=
  (items_loop stringWidth str_float base_font).
#[local] Abbreviation totals_phaseF := (totals_phase base_font).
#[local] Abbreviation note_phaseF := (note_phase stringWidth base_font).
#[local] Abbreviation note_loopF := (note_loop base_font).
#[local] Abbreviation header_phaseF :=
  (header_phase stringWidth base_font logo).
#[local] Abbreviation render_phasesF :=
  (render_phases stringWidth str_float base_font logo).
#[local] Abbreviation generateF :=
  (generate_invoice_pdf stringWidth py_float str_float base_font logo).

Import FloatFacts TaxFacts.

(** **** The dictionary built by the items loop *)

Lemma items_loop_dict cur rate its :
  forall row_y d0,
    snd (items_loopF cur rate its row_y d0) = aggregate rate its d0.
Proof.
  induction its as [|it rest IH]; intros row_y d0; simpl; auto.
  rewrite <- (IH (row_top stringWidth str_float base_font cur it row_y
                  - row_height stringWidth str_float base_font cur it)).
  now destruct (items_loopF cur rate rest _ _) as [[t2 y2] d2].
Qed.

Lemma aggregate_cons rate it rest d0 :
  aggregate rate (it :: rest) d0
  = aggregate rate rest
      (dict_add (effective_rate rate (taxv it)) (item_subtotal it) d0).
Proof. reflexivity. Qed.

Lemma aggregate_get rate k its :
  forall d0,
    dict_get k (aggregate rate its d0)
    = bucket_sum rate k its (dict_get k d0).
Proof.
  induction its as [|it rest IH]; intros d0; [reflexivity|].
  rewrite aggregate_cons, IH, dict_get_add.
  unfold bucket_sum, items_at. cbn [filter].
  rewrite (feqb_sym k).
  now destruct (PrimFloat.eqb (effective_rate rate (taxv it)) k).
Qed.

Lemma aggregate_distinct rate its :
  forall d0,
    distinct_keys (dict_keys d0) ->
    distinct_keys (dict_keys (aggregate rate its d0)).
Proof.
  induction its as [|it rest IH]; intros d0 H; auto.
  rewrite aggregate_cons. apply IH. now apply dict_keys_add_distinct.
Qed.

(** Every key is the effective rate of an item. *)
Lemma aggregate_keys_from rate its k :
  forall d0,
    In k (dict_keys (aggregate rate its d0)) ->
    In k (dict_keys d0) \/
    exists it, In it its /\ k = effective_rate rate (taxv it).
Proof.
  induction its as [|it rest IH]; intros d0 H; [now left|].
  rewrite aggregate_cons in H. apply IH in H.
  destruct H as [H | (it' & Hin & Hk)].
  - rewrite dict_keys_add in H. apply in_app_or in H.
    destruct H as [H | H]; [now left|].
    destruct (existsb _ _); [destruct H|].
    destruct H as [<- | []]. right. exists it. split; [now left | easy].
  - right. exists it'. split; [now right | easy].
Qed.

Lemma aggregate_keys_grow rate its k :
  forall d0,
    In k (dict_keys d0) -> In k (dict_keys (aggregate rate its d0)).
Proof.
  induction its as [|it rest IH]; intros d0 H; auto.
  rewrite aggregate_cons. apply IH. rewrite dict_keys_add.
  apply in_or_app. now left.
Qed.

(** Every item finds its bucket: a key equal to its effective rate, or,
    for a rate that equals nothing, the rate itself. *)
Lemma aggregate_keys_cover rate its :
  forall d0 it,
    In it its ->
    In (effective_rate rate (taxv it)) (dict_keys (aggregate rate its d0)) \/
    exists k, In k (dict_keys (aggregate rate its d0)) /\
              PrimFloat.eqb k (effective_rate rate (taxv it)) = true.
Proof.
  induction its as [|it' rest IH]; intros d0 it Hin; [destruct Hin|].
  rewrite aggregate_cons. destruct Hin as [-> | Hin]; [|now apply IH].
  set (r := effective_rate rate (taxv it)).
  set (d1 := dict_add r (item_subtotal it) d0).
  assert (H : In r (dict_keys d1) \/
              exists k, In k (dict_keys d1) /\ PrimFloat.eqb k r = true).
  { subst d1. rewrite dict_keys_add.
    destruct (existsb (fun k => PrimFloat.eqb k r) (dict_keys d0)) eqn:E.
    - right. apply existsb_exists in E. destruct E as (k & Hk & Ek).
      exists k. split; [apply in_or_app; now left | exact Ek].
    - left. apply in_or_app. right. now left. }
  destruct H as [H | (k & Hk & Ek)].
  - left. now apply aggregate_keys_grow.
  - right. exists k. split; [now apply aggregate_keys_grow | exact Ek].
Qed.

(** **** The totals loop *)

Lemma totals_loop_spec cur by_rate rates :
  forall row_y ts0 tt0 r,
    totals_loop cur rates by_rate row_y ts0 tt0 = Some r ->
    pages (fst (fst (fst r))) = 0%nat /\
    texts (fst (fst (fst r))) = flat_map (bucket_texts cur by_rate) rates /\
    snd (fst (fst r)) == row_y - 28 * inject_Z (Z.of_nat (length rates)) /\
    snd (fst r)
      = fold_left PrimFloat.add (map (fun k => dict_get k by_rate) rates)
          ts0 /\
    snd r
      = fold_left PrimFloat.add
          (map (fun k => (dict_get k by_rate * k)%float) rates) tt0 /\
    Forall (fun k => pct k <> None) rates.
Proof.
  induction rates as [|rate rest IH]; intros row_y ts0 tt0 r H.
  - injection H as <-. cbn [fst snd length map fold_left flat_map].
    repeat split; try reflexivity; try constructor. simpl. ring.
  - cbn [totals_loop] in H.
    destruct (pct rate) as [percent|] eqn:Ep; [|discriminate].
    destruct (totals_loop cur rest by_rate _ _ _)
      as [[[[t y] ts] tt']|] eqn:El; [|discriminate].
    injection H as <-.
    specialize (IH _ _ _ _ El). cbn [fst snd] in *.
    destruct IH as (Hp & Ht & Hy & Hs & Hx & Hf).
    split; [|split; [|split; [|split; [|split]]]].
    + exact Hp.
    + cbn [flat_map]. unfold bucket_texts at 1. rewrite Ep, <- Ht.
      reflexivity.
    + rewrite Hy. cbn [length]. rewrite Nat2Z.inj_succ. unfold Z.succ.
      rewrite inject_Z_plus. change (inject_Z 1) with 1. ring.
    + exact Hs.
    + exact Hx.
    + constructor; [now rewrite Ep | exact Hf].
Qed.

(** The loop raises exactly when a label does. *)
Lemma totals_loop_none cur by_rate rates :
  forall row_y ts0 tt0,
    totals_loop cur rates by_rate row_y ts0 tt0 = None <->
    Exists (fun k => pct k = None) rates.
Proof.
  induction rates as [|rate rest IH]; intros row_y ts0 tt0.
  - split; [discriminate | intros H; inversion H].
  - cbn [totals_loop]. destruct (pct rate) as [percent|] eqn:Ep.
    + specialize (IH (row_y - 14 - 14)
                    (ts0 + dict_get rate by_rate)%float
                    (tt0 + dict_get rate by_rate * rate)%float).
      destruct (totals_loop cur rest by_rate _ _ _)
        as [[[[t y] ts] tt']|].
      * split; [discriminate|]. intros H. inversion H; subst.
        -- congruence.
        -- match goal with
           | Hr : Exists _ rest |- _ => apply IH in Hr; discriminate
           end.
      * split; [|reflexivity]. intros _. right. now apply IH.
    + split; [|reflexivity]. intros _. now left.
Qed.

(** **** Phases that never close a page *)

Lemma pages_cons_other (i : instr) (t : list instr) :
  is_show_page i = false -> pages (i :: t) = pages t.
Proof. intros H. unfold pages. simpl. now rewrite H. Qed.

Lemma draw_wrapped_loop_pages size max_w s :
  forall x y lh line,
    pages (fst (fst (draw_wrapped_loop stringWidth base_font size max_w
                       s x y lh line))) = 0%nat.
Proof.
  induction s as [|ch s IH]; intros x y lh line; simpl; auto.
  destruct (fits stringWidth base_font size max_w (line ++ [ch])).
  - apply IH.
  - specialize (IH x (y - lh) lh [ch]).
    destruct (draw_wrapped_loop stringWidth base_font size max_w
                s x (y - lh) lh [ch]) as [[t y'] l'].
    exact IH.
Qed.

Lemma draw_wrapped_pages size max_w text x y lh :
  pages (fst (draw_wrapped stringWidth base_font size max_w text x y lh))
  = 0%nat.
Proof.
  unfold draw_wrapped.
  pose proof (draw_wrapped_loop_pages size max_w text x y lh []) as H.
  destruct (draw_wrapped_loop stringWidth base_font size max_w
              text x y lh []) as [[t y'] l'].
  cbn [fst] in H.
  destruct (nonempty l'); cbn [fst]; rewrite pages_cons_other by reflexivity.
  - rewrite pages_app, H. reflexivity.
  - exact H.
Qed.

Lemma draw_block_pages lines :
  forall y max_w,
    pages (fst (draw_block stringWidth base_font lines y max_w)) = 0%nat.
Proof.
  induction lines as [|line rest IH]; intros y max_w; simpl; auto.
  destruct (nonempty line); [|apply IH].
  pose proof (draw_wrapped_pages text_font_size max_w line margin_x y 12)
    as H.
  destruct (draw_wrapped stringWidth base_font text_font_size max_w
              line margin_x y 12) as [t1 y1].
  specialize (IH y1 max_w).
  destruct (draw_block stringWidth base_font rest y1 max_w) as [t2 y2].
  cbn [fst] in *. now rewrite pages_app, H, IH.
Qed.

Lemma draw_lines_left_pages x step lines y :
  pages (fst (draw_lines DrawString x y step lines)) = 0%nat.
Proof.
  revert y. induction lines as [|ln rest IH]; intros y; simpl; auto.
  specialize (IH (y - step)).
  destruct (draw_lines DrawString x (y - step) step rest) as [t y'].
  exact IH.
Qed.

Lemma draw_meta_pages fields :
  forall y,
    pages (fst (draw_meta stringWidth base_font fields y)) = 0%nat.
Proof.
  induction fields as [|[label val] rest IH]; intros y; simpl; auto.
  pose proof (draw_lines_left_pages meta_x 14
                (wrap stringWidth base_font 10 meta_max_w val) (y - 12)) as H.
  destruct (draw_lines DrawString meta_x (y - 12) 14 _) as [t1 y1].
  specialize (IH y1).
  destruct (draw_meta stringWidth base_font rest y1) as [t2 y2].
  cbn [fst] in *. rewrite pages_cons_other by reflexivity.
  now rewrite pages_app, H, IH.
Qed.

Lemma header_phase_pages d rate :
  pages (fst (header_phaseF d rate)) = 0%nat.
Proof.
  unfold header_phase.
  match goal with
  | |- context [draw_block stringWidth base_font ?ls ?y ?w] =>
      pose proof (draw_block_pages ls y w) as Hs;
      destruct (draw_block stringWidth base_font ls y w) as [ts ys]
  end.
  set (tno := if nonempty (invoice_no d) then _ else _).
  assert (Hno : pages (fst tno) = 0%nat).
  { subst tno. destruct (nonempty (invoice_no d)); [|reflexivity].
    pose proof (draw_lines_left_pages meta_x 14
                  (wrap stringWidth base_font 10 meta_max_w (invoice_no d))
                  (y_top - 16)) as H.
    destruct (draw_lines DrawString meta_x (y_top - 16) 14 _) as [t y].
    exact H. }
  destruct tno as [tn yn].
  match goal with
  | |- context [draw_meta stringWidth base_font ?fs ?y] =>
      pose proof (draw_meta_pages fs y) as Hm;
      destruct (draw_meta stringWidth base_font fs y) as [tm ym]
  end.
  set (tlogo := match logo with LogoDrawn => _ | _ => _ end).
  assert (Hlogo : pages (fst tlogo) = 0%nat)
    by (subst tlogo; destruct logo; reflexivity).
  destruct tlogo as [tl yl].
  match goal with
  | |- context [draw_block stringWidth base_font ?ls ?y ?w] =>
      pose proof (draw_block_pages ls y w) as Hb;
      destruct (draw_block stringWidth base_font ls y w) as [tb yb]
  end.
  cbn [fst] in *. rewrite !pages_app, Hs, Hno, Hm, Hlogo, Hb. reflexivity.
Qed.

(** The header ends with the heading of the item table, and leaves the
    cursor 18 points below the column titles. *)
Lemma header_phase_table d rate :
  exists t table_top,
    fst (header_phaseF d rate)
    = t ++ [SetFont base_font 11;
            DrawString margin_x table_top items_title;
            SetFont base_font 10;
            DrawString col_x0 (table_top - 16) (utf8 "内容 / Description");
            DrawString col_x1 (table_top - 16) (utf8 "数量 / Qty");
            DrawString col_x2 (table_top - 16) (utf8 "単価 / Unit");
            DrawString col_x3 (table_top - 16) (utf8 "小計 / Subtotal");
            Line margin_x (table_top - 16 - 4) (width - margin_x)
              (table_top - 16 - 4)] /\
    snd (header_phaseF d rate) = table_top - 16 - 18.
Proof.
  unfold header_phase.
  destruct (match logo with LogoDrawn => _ | _ => _ end) as [tl yl].
  match goal with
  | |- context [draw_block stringWidth base_font ?ls ?y ?w] =>
      destruct (draw_block stringWidth base_font ls y w) as [ts ys]
  end.
  destruct (if nonempty (invoice_no d) then _ else _) as [tn yn].
  match goal with
  | |- context [draw_meta stringWidth base_font ?fs ?y] =>
      destruct (draw_meta stringWidth base_font fs y) as [tm ym]
  end.
  match goal with
  | |- context [draw_block stringWidth base_font ?ls ?y ?w] =>
      destruct (draw_block stringWidth base_font ls y w) as [tb yb]
  end.
  cbn [fst snd].
  eexists. eexists. split; [|reflexivity].
  rewrite !List.app_assoc. reflexivity.
Qed.

Lemma totals_phase_spec cur by_rate row_y r :
  totals_phaseF cur by_rate row_y = Some r ->
  let rates := sorted_desc (dict_keys by_rate) in
  let y3 := snd (fst (fst r)) in
  pages (fst (fst (fst r))) = 0%nat /\
  texts (fst (fst (fst r)))
    = flat_map (bucket_texts cur by_rate) rates
      ++ [utf8 "小計 / Subtotal"; money_float cur (snd (fst r));
          total_label; money_float cur (snd (fst r) + snd r)%float] /\
  y3 == row_y - 56 - 28 * inject_Z (Z.of_nat (length rates)) /\
  In (DrawRightString totals_x_label y3 total_label) (fst (fst (fst r))) /\
  snd (fst r) = fsum (map (fun k => dict_get k by_rate) rates) /\
  snd r = fsum (map (fun k => (dict_get k by_rate * k)%float) rates) /\
  Forall (fun k => pct k <> None) rates.
Proof.
  unfold totals_phase. intros H.
  destruct (totals_loop cur (sorted_desc (dict_keys by_rate))
              by_rate (row_y - 6 - 18) 0 0)
    as [[[[t y1] ts] tt']|] eqn:El; [|discriminate].
  injection H as <-.
  pose proof (totals_loop_spec _ _ _ _ _ _ _ El) as H.
  cbn [fst snd] in H |- *. destruct H as (Hp & Ht & Hy & Hs & Hx & Hf).
  split; [|split; [|split; [|split; [|split; [|split]]]]].
  - rewrite pages_cons_other by reflexivity.
    rewrite pages_app, Hp. reflexivity.
  - change (texts (Line ?a ?b ?c ?e :: ?l)) with (texts l).
    rewrite texts_app, Ht. reflexivity.
  - rewrite Hy. ring.
  - right. apply in_or_app. right. simpl. do 4 right. now left.
  - exact Hs.
  - exact Hx.
  - exact Hf.
Qed.

(** The totals raise exactly when the label of a bucket does. *)
Lemma totals_phase_none cur by_rate row_y :
  totals_phaseF cur by_rate row_y = None <->
  exists k, In k (dict_keys by_rate) /\ pct k = None.
Proof.
  unfold totals_phase.
  pose proof (totals_loop_none cur by_rate (sorted_desc (dict_keys by_rate))
                (row_y - 6 - 18) 0 0) as H.
  destruct (totals_loop cur (sorted_desc (dict_keys by_rate))
              by_rate (row_y - 6 - 18) 0 0) as [[[[t y1] ts] tt']|].
  - split; [discriminate|]. intros (k & Hk & Ek).
    assert (E : Exists (fun k => pct k = None)
                  (sorted_desc (dict_keys by_rate))).
    { apply Exists_exists. exists k. split; [|exact Ek].
      apply (Permutation_in _ (Permutation_sym (sorted_desc_perm _))).
      exact Hk. }
    apply H in E. discriminate.
  - split; [|reflexivity]. intros _.
    destruct H as [H _]. specialize (H eq_refl).
    apply Exists_exists in H. destruct H as (k & Hk & Ek).
    exists k. split; [|exact Ek].
    now apply (Permutation_in _ (sorted_desc_perm _)).
Qed.

(** **** The phases of a render *)

Lemma render_phases_unfold d rate :
  let cur := currency_of d in
  let h := header_phaseF d rate in
  let il := items_loopF cur rate (items d) (snd h) [] in
  render_phasesF d rate
  = match totals_phaseF cur (snd il) (snd (fst il)) with
    | None => None
    | Some tp =>
        Some (mkPhases (fst h) (fst (fst il)) (fst (fst (fst tp)))
                (fst (note_phaseF (note d) (snd (fst (fst tp)))))
                [ShowPage; Save] (snd il) (snd (fst tp)) (snd tp))
    end.
Proof.
  unfold render_phases.
  destruct (header_phaseF d rate) as [th y0]. cbn [fst snd].
  destruct (items_loopF (currency_of d) rate (items d) y0 [])
    as [[ti y1] by_rate]. cbn [fst snd].
  destruct (totals_phaseF (currency_of d) by_rate y1)
    as [[[[tt y2] ts] tx]|]; [|reflexivity].
  cbn [fst snd].
  now destruct (note_phaseF (note d) y2) as [tn y3].
Qed.

(** A render that returns has these phases. *)
Lemma render_phases_some d rate p :
  render_phasesF d rate = Some p ->
  let cur := currency_of d in
  let h := header_phaseF d rate in
  let il := items_loopF cur rate (items d) (snd h) [] in
  exists tp,
    totals_phaseF cur (snd il) (snd (fst il)) = Some tp /\
    p = mkPhases (fst h) (fst (fst il)) (fst (fst (fst tp)))
          (fst (note_phaseF (note d) (snd (fst (fst tp)))))
          [ShowPage; Save] (snd il) (snd (fst tp)) (snd tp).
Proof.
  intros H cur h il. rewrite render_phases_unfold in H. cbv zeta in H.
  fold cur h il in H.
  destruct (totals_phaseF cur (snd il) (snd (fst il))) as [tp|];
    [|discriminate].
  exists tp. split; [reflexivity|]. now injection H as <-.
Qed.

(** Pages are closed by item rows, by the note, and once at the end. *)
Lemma trace_pages d rate p :
  render_phasesF d rate = Some p ->
  pages (ph_header p) = 0%nat /\
  pages (ph_totals p) = 0%nat /\
  pages (trace_of p) = (pages (ph_items p) + pages (ph_note p) + 1)%nat.
Proof.
  intros H. apply render_phases_some in H. cbv zeta in H.
  destruct H as (tp & Etp & ->).
  pose proof (totals_phase_spec _ _ _ _ Etp) as Ht. cbv zeta in Ht.
  destruct Ht as (Htp & _).
  pose proof (header_phase_pages d rate) as Hh.
  unfold trace_of. cbn [ph_header ph_items ph_totals ph_note ph_close].
  rewrite !pages_app, Hh, Htp.
  change (pages [ShowPage; Save]) with 1%nat. repeat split; lia.
Qed.

(** The render raises exactly when the totals do. *)
Lemma render_phases_none d rate :
  render_phasesF d rate = None <->
  exists k, In k (dict_keys (aggregate rate (items d) [])) /\ pct k = None.
Proof.
  rewrite render_phases_unfold. cbv zeta.
  rewrite <- (items_loop_dict (currency_of d) rate (items d)
                (snd (header_phaseF d rate)) []).
  set (il := items_loopF (currency_of d) rate (items d)
               (snd (header_phaseF d rate)) []).
  rewrite <- (totals_phase_none (currency_of d) (snd il) (snd (fst il))).
  destruct (totals_phaseF (currency_of d) (snd il) (snd (fst il)));
    split; try discriminate; reflexivity.
Qed.

(** *** C1 *)

(** C1 (amended). In every render that returns, with binary64 arithmetic
    as the code has it: an item's subtotal is the float product of
    quantity and unit price and its effective rate is its override when
    one is present and non-empty, the default rate otherwise; every bucket
    key is the effective rate of an item and every item has a bucket whose
    key equals its effective rate; the bucket of a rate holds the running
    float sum, from 0.0 and in item order, of the subtotals of the items at
    that rate; the buckets are visited in strictly descending rate order
    and the label of each is defined; the totals block prints one subtotal
    line and one tax line per bucket in that order, then the subtotal and
    the total; the subtotal is the running float sum of the bucket
    subtotals in that order and the tax the running float sum of bucket
    subtotal times rate, each product rounded before it is added. *)
Theorem tax_aggregation_spec (d : invoice) (rate : float) (p : phases)
  (Hok : render_phasesF d rate = Some p) :
  let its := items d in
  let by_rate := ph_by_rate p in
  let rates := sorted_desc (dict_keys by_rate) in
  (forall it, item_subtotal it = (qty it * unit_price it)%float) /\
  (effective_rate rate TaxNone = rate /\
   effective_rate rate TaxEmpty = rate /\
   forall r, effective_rate rate (TaxRate r) = r) /\
  (forall k, In k rates ->
             exists it, In it its /\ k = effective_rate rate (taxv it)) /\
  (forall it, In it its ->
              exists k, In k rates /\
                PrimFloat.eqb k (effective_rate rate (taxv it)) = true) /\
  (forall k, dict_get k by_rate = bucket_sum rate k its 0) /\
  descending rates /\
  Forall (fun k => pct k <> None) rates /\
  texts (ph_totals p)
    = flat_map (bucket_texts (currency_of d) by_rate) rates
      ++ [utf8 "小計 / Subtotal";
          money_float (currency_of d) (ph_total_sub p);
          total_label;
          money_float (currency_of d)
            (ph_total_sub p + ph_total_tax p)%float] /\
  ph_total_sub p = fsum (map (fun k => dict_get k by_rate) rates) /\
  ph_total_tax p
    = fsum (map (fun k => (dict_get k by_rate * k)%float) rates).
Proof.
  intros its by_rate rates.
  apply render_phases_some in Hok. cbv zeta in Hok.
  destruct Hok as (tp & Etp & Ep).
  set (il := items_loopF (currency_of d) rate (items d)
               (snd (header_phaseF d rate)) []) in *.
  assert (Hil : by_rate = snd il) by (unfold by_rate; now rewrite Ep).
  assert (Htot : ph_totals p = fst (fst (fst tp))) by now rewrite Ep.
  assert (Hts : ph_total_sub p = snd (fst tp)) by now rewrite Ep.
  assert (Htt : ph_total_tax p = snd tp) by now rewrite Ep.
  assert (Hby : by_rate = aggregate rate its []).
  { rewrite Hil. apply items_loop_dict. }
  pose proof (totals_phase_spec _ _ _ _ Etp) as Ht. cbv zeta in Ht.
  rewrite <- Hil, <- Htot, <- Hts, <- Htt in Ht. fold rates in Ht.
  destruct Ht as (_ & Htx & _ & _ & Hsub & Htax & Hpct).
  clearbody by_rate. clear Ep Etp Hil Htot Hts Htt tp il.
  assert (Hnum : Forall (fun k => is_number k = true) (dict_keys by_rate)).
  { apply Forall_forall. intros k Hk. apply pct_number.
    rewrite Forall_forall in Hpct. apply Hpct.
    now apply (Permutation_in _ (Permutation_sym (sorted_desc_perm _))). }
  split; [reflexivity|].
  split; [repeat split|].
  split; [|split; [|split; [|split; [|split; [|split; [|split]]]]]].
  - intros k Hin. subst rates.
    apply (Permutation_in _ (sorted_desc_perm _)) in Hin.
    rewrite Hby in Hin. apply aggregate_keys_from in Hin.
    destruct Hin as [[] | Hin]. exact Hin.
  - intros it Hin.
    destruct (aggregate_keys_cover rate its [] it Hin)
      as [Hk | (k & Hk & Ek)]; rewrite <- Hby in Hk.
    + exists (effective_rate rate (taxv it)). split.
      * now apply (Permutation_in _ (Permutation_sym (sorted_desc_perm _))).
      * rewrite Forall_forall in Hnum. exact (Hnum _ Hk).
    + exists k. split; [|exact Ek].
      now apply (Permutation_in _ (Permutation_sym (sorted_desc_perm _))).
  - intros k. rewrite Hby. apply aggregate_get.
  - subst rates. apply sorted_desc_sorted; [|exact Hnum].
    rewrite Hby. apply aggregate_distinct. constructor.
  - exact Hpct.
  - exact Htx.
  - exact Hsub.
  - exact Htax.
Qed.

(** *** C9 *)

(** C9. The totals block never closes a page, whatever the cursor and the
    buckets: its lines are placed by subtraction from the cursor left by
    the item table, the total line landing 56 points plus 28 points per
    bucket below it, with no test against the page; with 27 buckets or
    more the total line is below the bottom margin wherever on the page
    the block starts.  In a whole render the header closes no page either:
    pages are closed only by item rows, by the note, and once at the end.
    The block is drawn whenever the label of every bucket is defined. *)
Theorem totals_never_break (d : invoice) (rate : float) (cur : pystr)
  (by_rate : rate_dict) (row_y : Q) :
  let n := length (sorted_desc (dict_keys by_rate)) in
  n = length (dict_keys by_rate) /\
  (totals_phaseF cur by_rate row_y = None <->
   exists k, In k (dict_keys by_rate) /\ pct k = None) /\
  (forall r,
     totals_phaseF cur by_rate row_y = Some r ->
     let y_total := snd (fst (fst r)) in
     pages (fst (fst (fst r))) = 0%nat /\
     y_total == row_y - 56 - 28 * inject_Z (Z.of_nat n) /\
     In (DrawRightString totals_x_label y_total total_label)
        (fst (fst (fst r))) /\
     ((27 <= n)%nat -> row_y <= height -> y_total < margin_y)) /\
  pages (fst (header_phaseF d rate)) = 0%nat /\
  (forall p,
     render_phasesF d rate = Some p ->
     ph_header p = fst (header_phaseF d rate) /\
     pages (ph_header p) = 0%nat /\
     pages (ph_totals p) = 0%nat /\
     pages (trace_of p) = (pages (ph_items p) + pages (ph_note p) + 1)%nat).
Proof.
  intros n.
  split.
  { subst n. apply Permutation_length, sorted_desc_perm. }
  split; [apply totals_phase_none|].
  split.
  { intros r Hr y_total.
    pose proof (totals_phase_spec _ _ _ _ Hr) as Ht. cbv zeta in Ht.
    destruct Ht as (Hp & _ & Hy & Hin & _).
    split; [exact Hp|]. split; [exact Hy|]. split; [exact Hin|].
    intros Hn Hrow. subst y_total. rewrite Hy. fold n.
    assert (Hq : 27 <= inject_Z (Z.of_nat n)).
    { change 27 with (inject_Z 27). rewrite <- Zle_Qle. lia. }
    revert Hq. generalize (inject_Z (Z.of_nat n)). intros k Hk.
    unfold height, margin_y, mm in *. lra. }
  split; [apply header_phase_pages|].
  intros p Hp. split; [|now apply (trace_pages d rate)].
  apply render_phases_some in Hp. cbv zeta in Hp.
  destruct Hp as (tp & _ & ->). reflexivity.
Qed.

(** *** C8 *)

(** C8 (amended). An invoice with no items whose tax rate converts
    renders without error, and the calls of the render are: the header,
    ending with the heading of the item table; no item row; the rule
    under the table and the rule of the totals 18 points lower; the
    subtotal line and the total line, both of amount 0; the note; then
    [showPage] and [save].  No bucket exists, and the only pages closed
    are those of the note and the final one.  Every render that returns,
    with or without items, ends with [showPage] and [save], so it closes
    at least one page. *)
Theorem empty_invoice_renders (d : invoice) (rate : float)
  (Hitems : items d = [])
  (Hrate : default_rate_of py_float d = Some rate) :
  let cur := currency_of d in
  let h := header_phaseF d rate in
  let row_y := snd h in
  let y2 := row_y - 6 - 18 - 18 in
  let y3 := y2 - 14 in
  let n := note_phaseF (note d) y3 in
  let t :=
    fst h
    ++ [Line margin_x (row_y - 6) (width - margin_x) (row_y - 6);
        Line margin_x (row_y - 6 - 18) (width - margin_x) (row_y - 6 - 18);
        DrawRightString totals_x_label y2 (utf8 "小計 / Subtotal");
        DrawRightString totals_x_val y2 (money_float cur 0);
        SetFont base_font 12;
        DrawRightString totals_x_label y3 total_label;
        DrawRightString totals_x_val y3 (money_float cur 0)]
    ++ fst n ++ [ShowPage; Save] in
  generateF d = Some t /\
  (exists t0 table_top,
     fst h
     = t0 ++ [SetFont base_font 11;
              DrawString margin_x table_top items_title;
              SetFont base_font 10;
              DrawString col_x0 (table_top - 16) (utf8 "内容 / Description");
              DrawString col_x1 (table_top - 16) (utf8 "数量 / Qty");
              DrawString col_x2 (table_top - 16) (utf8 "単価 / Unit");
              DrawString col_x3 (table_top - 16) (utf8 "小計 / Subtotal");
              Line margin_x (table_top - 16 - 4) (width - margin_x)
                (table_top - 16 - 4)] /\
     row_y = table_top - 16 - 18) /\
  money_float cur 0
    = (if pystr_eqb cur JPY then utf8 "¥0" else utf8 "0.00") /\
  (exists p,
     render_phasesF d rate = Some p /\
     t = trace_of p /\
     ph_items p = [] /\
     ph_by_rate p = [] /\
     ph_total_sub p = 0%float /\ ph_total_tax p = 0%float) /\
  pages t = (pages (fst n) + 1)%nat /\
  (forall d' t',
     generateF d' = Some t' ->
     (exists t0, t' = t0 ++ [ShowPage; Save]) /\ (1 <= pages t')%nat).
Proof.
  intros cur h row_y y2 y3 n t.
  assert (Hp : render_phasesF d rate
               = Some (mkPhases (fst h) []
                         [Line margin_x (row_y - 6) (width - margin_x)
                            (row_y - 6);
                          Line margin_x (row_y - 6 - 18) (width - margin_x)
                            (row_y - 6 - 18);
                          DrawRightString totals_x_label y2
                            (utf8 "小計 / Subtotal");
                          DrawRightString totals_x_val y2 (money_float cur 0);
                          SetFont base_font 12;
                          DrawRightString totals_x_label y3 total_label;
                          DrawRightString totals_x_val y3
                            (money_float cur 0)]
                         (fst n) [ShowPage; Save] [] 0%float 0%float)).
  { rewrite render_phases_unfold. cbv zeta. rewrite Hitems. reflexivity. }
  split.
  { unfold generate_invoice_pdf. rewrite Hrate, Hp. reflexivity. }
  split; [apply header_phase_table|].
  split.
  { unfold money_float. destruct (pystr_eqb cur JPY); vm_compute; reflexivity. }
  split.
  { eexists. split; [exact Hp|]. repeat split; reflexivity. }
  split.
  { subst t. rewrite !pages_app.
    unfold h. rewrite (header_phase_pages d rate).
    change (pages [ShowPage; Save]) with 1%nat.
    rewrite pages_cons_other by reflexivity.
    rewrite pages_cons_other by reflexivity.
    reflexivity. }
  intros d' t' Hg. unfold generate_invoice_pdf in Hg.
  destruct (default_rate_of py_float d') as [rate'|]; [|discriminate].
  destruct (render_phasesF d' rate') as [p'|] eqn:Ep'; [|discriminate].
  injection Hg as <-.
  pose proof (trace_pages _ _ _ Ep') as (_ & _ & Hpg).
  split; [|rewrite Hpg; lia].
  apply render_phases_some in Ep'. cbv zeta in Ep'.
  destruct Ep' as (tp & _ & ->).
  eexists. unfold trace_of. cbn [ph_header ph_items ph_totals ph_note ph_close].
  rewrite !List.app_assoc. reflexivity.
Qed.

End RenderFacts.

(** * Concrete runs *)

Set Warnings "-inexact-float".

(** The invoice of the specification: 1000 at 10%, 500 at 8%, 200 at 0%. *)
Lemma tax_aggregation_spec_witness :
  let d := with_items
             [mkItem (utf8 "Drink") 5 100 (TaxRate 0.08);
              mkItem (utf8 "Free") 1 200 (TaxRate 0);
              mkItem (utf8 "Design") 10 100 TaxNone]
             (with_tax_rate (PyFloat 0.1) blank_invoice) in
  exists p,
    render_phases half_em str_float_1 helvetica LogoAbsent d 0.1 = Some p /\
    descending (sorted_desc (dict_keys (ph_by_rate p))) /\
    ph_total_sub p
    = fsum (map (fun k => dict_get k (ph_by_rate p))
              (sorted_desc (dict_keys (ph_by_rate p)))).
Proof.
  intros d.
  assert (H : {p | render_phases half_em str_float_1 helvetica LogoAbsent
                     d 0.1 = Some p})
    by (eexists; vm_compute; reflexivity).
  destruct H as [p Hp]. exists p. split; [exact Hp|].
  pose proof (tax_aggregation_spec half_em str_float_1 helvetica LogoAbsent
                d 0.1 p Hp) as T.
  cbv zeta in T.
  destruct T as (_ & _ & _ & _ & _ & Hd & _ & _ & Hs & _).
  split; [exact Hd | exact Hs].
Defined.

Example three_rates_example :
  let d := with_items
             [mkItem (utf8 "Drink") 5 100 (TaxRate 0.08);
              mkItem (utf8 "Free") 1 200 (TaxRate 0);
              mkItem (utf8 "Design") 10 100 TaxNone]
             (with_tax_rate (PyFloat 0.1) blank_invoice) in
  exists p,
    render_phases half_em str_float_1 helvetica LogoAbsent d 0.1 = Some p /\
    sorted_desc (dict_keys (ph_by_rate p)) = [0.1; 0.08; 0]%float /\
    ph_total_sub p = 1700%float /\
    ph_total_tax p = 140%float /\
    texts (ph_totals p)
    = [utf8 "対象小計（10%）"; utf8 "¥1,000"; utf8 "消費税（10%）"; utf8 "¥100";
       utf8 "対象小計（8%）"; utf8 "¥500"; utf8 "消費税（8%）"; utf8 "¥40";
       utf8 "対象小計（0%）"; utf8 "¥200"; utf8 "消費税（0%）"; utf8 "¥0";
       utf8 "小計 / Subtotal"; utf8 "¥1,700";
       utf8 "合計 / Total"; utf8 "¥1,840"].
Proof. eexists. vm_compute. repeat split; reflexivity. Qed.

(** The subtotal is not the sum of the item subtotals.  Grouping by rate
    changes the order of the additions: with the items 1e16, 1, 1 at the
    default rate 0 and 1, 1 at 10%, the bucket of 0% holds 1e16 (each 1
    added to it is rounded away) and the bucket of 10% holds 2; they are
    visited as 10% then 0%, so the subtotal is 10000000000000002.  The
    running sum of the five subtotals in item order is 1e16, and their
    exact sum is 10000000000000004: the subtotal equals neither. *)
Lemma subtotal_sum_counterexample :
  let its :=
    [mkItem (utf8 "A") 10000000000000000 1 TaxNone;
     mkItem (utf8 "B") 1 1 TaxNone;
     mkItem (utf8 "C") 1 1 TaxNone;
     mkItem (utf8 "D") 1 1 (TaxRate 0.1);
     mkItem (utf8 "E") 1 1 (TaxRate 0.1)] in
  let d := with_items its blank_invoice in
  default_rate_of digits_float d = Some 0%float /\
  exists p,
    render_phases half_em str_float_1 helvetica LogoAbsent d 0 = Some p /\
    ph_total_sub p = 10000000000000002%float /\
    fsum (map item_subtotal its) = 10000000000000000%float /\
    exact_sum (map item_subtotal its) == 10000000000000004 /\
    PrimFloat.eqb (ph_total_sub p) (fsum (map item_subtotal its)) = false /\
    ~ float_value (ph_total_sub p) == exact_sum (map item_subtotal its).
Proof.
  split; [reflexivity|]. eexists.
  split; [vm_compute; reflexivity|].
  split; [vm_compute; reflexivity|].
  split; [vm_compute; reflexivity|].
  split; [vm_compute; reflexivity|].
  split; [vm_compute; reflexivity|].
  vm_compute. discriminate.
Qed.

(** The tax of a bucket is a rounded product: 25 at 10% is taxed
    2.5 exactly in binary64 and printed as 2 yen, the exact product of 25
    and the float 0.1 being above 2.5. *)
Example rounded_tax_example :
  let d := with_items [mkItem (utf8 "Tea") 25 1 TaxNone]
             (with_tax_rate (PyFloat 0.1) blank_invoice) in
  exists p,
    render_phases half_em str_float_1 helvetica LogoAbsent d 0.1 = Some p /\
    ph_total_tax p = 2.5%float /\
    25 * float_value 0.1 > 25 # 10 /\
    texts (ph_totals p)
    = [utf8 "対象小計（10%）"; utf8 "¥25"; utf8 "消費税（10%）"; utf8 "¥2";
       utf8 "小計 / Subtotal"; utf8 "¥25";
       utf8 "合計 / Total"; utf8 "¥28"].
Proof. eexists. vm_compute. repeat split; reflexivity. Qed.

(** The label of a rate truncates the float product: 29% is labelled
    28%. *)
Example label_truncates_example :
  pct 0.29 = Some (utf8 "28") /\ pct 0.15 = Some (utf8 "15") /\
  pct nan = None /\ pct infinity = None.
Proof. vm_compute. repeat split; reflexivity. Qed.

Lemma empty_invoice_renders_witness :
  items blank_invoice = [] /\
  default_rate_of digits_float blank_invoice = Some 0%float /\
  exists t,
    generate_invoice_pdf half_em digits_float str_float_1 helvetica
      LogoAbsent blank_invoice = Some t /\
    pages t = 1%nat.
Proof.
  split; [reflexivity|]. split; [reflexivity|].
  pose proof (empty_invoice_renders half_em digits_float str_float_1
                helvetica LogoAbsent blank_invoice 0 eq_refl eq_refl) as H.
  cbv zeta in H. destruct H as (Hg & _ & _ & _ & Hp & _).
  eexists. split; [exact Hg | exact Hp].
Defined.

(** The empty invoice: one page, and a total of "¥0". *)
Example empty_invoice_example :
  exists p,
    render_phases half_em str_float_1 helvetica LogoAbsent blank_invoice 0
    = Some p /\
    pages (trace_of p) = 1%nat /\
    ph_items p = [] /\
    texts (ph_totals p)
    = [utf8 "小計 / Subtotal"; utf8 "¥0"; utf8 "合計 / Total"; utf8 "¥0"].
Proof. eexists. vm_compute. repeat split; reflexivity. Qed.

(** An invoice without items whose tax rate does not convert is not
    rendered: the conversion raises before anything is drawn. *)
Lemma empty_invoice_bad_rate_counterexample :
  let d := with_tax_rate (PyStr (utf8 "10%")) blank_invoice in
  items d = [] /\
  generate_invoice_pdf half_em digits_float str_float_1 helvetica LogoAbsent
    d = None.
Proof. split; reflexivity. Qed.

(** A row that would end below 40 mm is moved to a new page; one that
    does not is drawn in place. *)
Example page_break_example :
  let it := mkItem (utf8 "Design") 10 100 TaxNone in
  let step y :=
    fst (fst (item_step half_em str_float_1 helvetica JPY 0 it y [])) in
  row_height half_em str_float_1 helvetica JPY it == 14 /\
  pages (step 127) = 1%nat /\
  pages (step 128) = 0%nat /\
  hd_error (tl (step 127)) = Some ShowPage.
Proof. vm_compute. repeat split; reflexivity. Qed.

(** A description of 100 characters wraps to three lines of the
    description column, and the row is three lines high. *)
Example three_line_row_example :
  let it := mkItem (repeat 120%N 100) 1 100 TaxNone in
  length (desc_lines half_em helvetica it) = 3%nat /\
  length (qty_lines half_em str_float_1 helvetica it) = 1%nat /\
  length (unit_lines half_em helvetica JPY it) = 1%nat /\
  length (sub_lines half_em helvetica JPY it) = 1%nat /\
  row_height half_em str_float_1 helvetica JPY it == 3 * line_h.
Proof. vm_compute. repeat split; reflexivity. Qed.

(** With 27 rates the total line of the totals block lies below the
    bottom margin, on the page the block started on. *)
Example many_rates_example :
  let by_rate :=
    map (fun k => ((float_of_Z (Z.of_nat k) / 100)%float, 100%float))
      (seq 1 27) in
  exists r,
    totals_phase helvetica JPY by_rate height = Some r /\
    pages (fst (fst (fst r))) = 0%nat /\
    snd (fst (fst r)) < margin_y.
Proof. eexists. vm_compute. repeat split; reflexivity. Qed.

(** * Further properties of the wrapping helpers *)

Section WrapMore.

Variable stringWidth : pystr -> pystr -> Q -> Q.
Variable font_name : pystr.
Variable font_size : Q.
Variable max_width : Q.

#[local] Abbreviation fitsM :=
  (fits stringWidth font_name font_size max_width).
#[local] Abbreviation loopM :=
  (wrap_loop stringWidth font_name font_size max_width).
#[local] Abbreviation wrapM :=
  (wrap_lines stringWidth font_name font_size max_width).
#[local] Abbreviation dloopM :=
  (draw_wrapped_loop stringWidth font_name font_size max_width).
#[local] Abbreviation drawM :=
  (draw_wrapped stringWidth font_name font_size max_width).
#[local] Abbreviation greedy_fromM :=
  (greedy_from stringWidth font_name font_size max_width).
#[local] Abbreviation greedyM :=
  (greedy stringWidth font_name font_size max_width).

(** After at least one character the accumulator is not empty. *)
Lemma wrap_loop_acc (s : pystr) :
  forall lines cur lines' cur',
    loopM s lines cur = (lines', cur') ->
    (s <> [] \/ cur <> []) -> cur' <> [].
Proof.
  induction s as [|ch s IH]; intros lines cur lines' cur' H Hne; simpl in H.
  - inversion H; subst. destruct Hne; congruence.
  - destruct (fitsM (cur ++ [ch])); apply (IH _ _ _ _ H); right.
    + now destruct cur.
    + discriminate.
Qed.

(** The lines of a non-empty text are the emitted lines and the last
    accumulator. *)
Lemma wrap_lines_raw (s : pystr) :
  s <> [] ->
  wrapM s = fst (loopM s [] []) ++ [snd (loopM s [] [])] /\
  snd (loopM s [] []) <> [].
Proof.
  intros Hne. destruct (loopM s [] []) as [lines cur] eqn:E.
  assert (Hc : cur <> []) by (apply (wrap_loop_acc s _ _ _ _ E); now left).
  split; [|exact Hc]. unfold wrap_lines. rewrite E. cbn [fst snd].
  destruct cur as [|c cur]; [congruence|]. simpl.
  destruct lines; reflexivity.
Qed.

(** The loop only appends to [lines], one line per character at most. *)
Lemma wrap_loop_length (s : pystr) :
  forall lines cur,
    (length (fst (loopM s lines cur)) <= length lines + length s)%nat.
Proof.
  induction s as [|ch s IH]; intros lines cur; simpl; [lia|].
  destruct (fitsM (cur ++ [ch])).
  - specialize (IH lines (cur ++ [ch])). lia.
  - specialize (IH (lines ++ [cur]) [ch]). rewrite length_app in IH.
    simpl in IH. lia.
Qed.

Lemma wrap_lines_length (s : pystr) :
  (1 <= length (wrapM s) <= S (length s))%nat.
Proof.
  destruct s as [|c s]; [simpl; lia|].
  destruct (wrap_lines_raw (c :: s)) as [E _]; [discriminate|].
  rewrite E, length_app.
  pose proof (wrap_loop_length (c :: s) [] []). simpl in *. lia.
Qed.

(** **** The drawing loop and the wrapping loop agree *)

Lemma draw_wrapped_loop_agrees (s : pystr) (x lh : Q) :
  forall y lines line,
    let r := dloopM s x y lh line in
    let t := fst (fst r) in
    loopM s lines line = (lines ++ texts t, snd r) /\
    snd (fst r) == y - inject_Z (Z.of_nat (length t)) * lh /\
    pages t = 0%nat /\
    length (texts t) = length t.
Proof.
  induction s as [|ch s IH]; intros y lines line; cbn zeta.
  - simpl. rewrite List.app_nil_r. repeat split; try reflexivity. ring.
  - simpl. destruct (fitsM (line ++ [ch])).
    + apply IH.
    + specialize (IH (y - lh) (lines ++ [line]) [ch]). cbn zeta in IH.
      destruct (dloopM s x (y - lh) lh [ch]) as [[t y'] l'].
      cbn [fst snd] in *. destruct IH as (Hl & Hy & Hp & Hn).
      split; [|split; [|split]].
      * rewrite Hl. now rewrite <- List.app_assoc.
      * rewrite Hy. cbn [length]. rewrite Nat2Z.inj_succ. unfold Z.succ.
        rewrite inject_Z_plus. change (inject_Z 1) with 1. ring.
      * exact Hp.
      * simpl. now rewrite Hn.
Qed.

Lemma draw_wrapped_facts (text : pystr) (x y lh : Q) :
  let r := drawM text x y lh in
  pages (fst r) = 0%nat /\
  (text = [] -> r = ([SetFont font_name font_size], y)) /\
  (text <> [] ->
   texts (fst r) = wrapM text /\
   concat (texts (fst r)) = text /\
   snd r == y - inject_Z (Z.of_nat (length (wrapM text))) * lh).
Proof.
  cbn zeta. unfold draw_wrapped.
  pose proof (draw_wrapped_loop_agrees text x lh y [] []) as H.
  cbn zeta in H.
  destruct (dloopM text x y lh []) as [[t y'] line] eqn:E.
  cbn [fst snd] in H. destruct H as (Hl & Hy & Hp & Hn).
  split; [|split].
  - destruct (nonempty line); cbn [fst];
      change (pages (SetFont font_name font_size :: ?l)) with (pages l);
      [|exact Hp].
    unfold pages in *. rewrite filter_app, length_app, Hp. reflexivity.
  - intros ->. simpl in E. now inversion E; subst.
  - intros Hne. destruct (wrap_lines_raw text Hne) as [Hw Hc].
    rewrite Hl in Hw, Hc. cbn [fst snd] in Hw, Hc. simpl in Hw.
    destruct line as [|c line]; [congruence|]. cbn [nonempty fst snd].
    assert (Ht : texts (SetFont font_name font_size
                          :: t ++ [DrawString x y' (c :: line)])
                 = wrapM text).
    { change (texts (SetFont font_name font_size :: ?l)) with (texts l).
      unfold texts. rewrite flat_map_app. fold (texts t).
      now rewrite Hw. }
    split; [exact Ht|]. split.
    + rewrite Ht. apply wrap_lines_concat.
    + rewrite Hw, length_app, Hn, Hy. cbn [length].
      rewrite Nat.add_1_r, Nat2Z.inj_succ. unfold Z.succ.
      rewrite inject_Z_plus. change (inject_Z 1) with 1. ring.
Qed.

(** **** The calls of [draw_wrapped], one by one *)

Lemma draw_lines_app (draw : Q -> Q -> pystr -> instr) (x step : Q)
  (a b : list pystr) :
  forall y,
    draw_lines draw x y step (a ++ b)
    = (fst (draw_lines draw x y step a)
         ++ fst (draw_lines draw x (snd (draw_lines draw x y step a)) step b),
       snd (draw_lines draw x (snd (draw_lines draw x y step a)) step b)).
Proof.
  induction a as [|l a IH]; intros y; simpl.
  - now destruct (draw_lines draw x y step b).
  - rewrite IH. destruct (draw_lines draw x (y - step) step a) as [t1 y1].
    reflexivity.
Qed.

Lemma draw_lines_nth (draw : Q -> Q -> pystr -> instr) (x step : Q)
  (lines : list pystr) :
  forall y i ln,
    nth_error lines i = Some ln ->
    exists yi,
      nth_error (fst (draw_lines draw x y step lines)) i
      = Some (draw x yi ln) /\
      yi == y - inject_Z (Z.of_nat i) * step.
Proof.
  induction lines as [|l lines IH]; intros y i ln H.
  - now destruct i.
  - destruct i as [|i]; simpl in H.
    + injection H as ->. exists y. simpl.
      destruct (draw_lines draw x (y - step) step lines).
      split; [reflexivity|]. simpl. ring.
    + destruct (IH (y - step) i ln H) as (yi & Hn & Hy).
      exists yi. cbn [draw_lines].
      destruct (draw_lines draw x (y - step) step lines) as [t y'].
      split; [exact Hn|]. rewrite Hy, Nat2Z.inj_succ. unfold Z.succ.
      rewrite inject_Z_plus. change (inject_Z 1) with 1. ring.
Qed.

Lemma draw_lines_length (draw : Q -> Q -> pystr -> instr) (x step : Q)
  (lines : list pystr) :
  forall y, length (fst (draw_lines draw x y step lines)) = length lines.
Proof.
  induction lines as [|l lines IH]; intros y; simpl; auto.
  specialize (IH (y - step)).
  destruct (draw_lines draw x (y - step) step lines). simpl in *.
  now rewrite IH.
Qed.

(** The loop of [draw_wrapped] draws its lines as [draw_lines] does. *)
Lemma draw_wrapped_loop_lines (s : pystr) (x lh : Q) :
  forall y line,
    let r := dloopM s x y lh line in
    draw_lines DrawString x y lh (texts (fst (fst r)))
    = (fst (fst r), snd (fst r)).
Proof.
  induction s as [|ch s IH]; intros y line; cbn zeta.
  - reflexivity.
  - simpl. destruct (fitsM (line ++ [ch])).
    + apply IH.
    + specialize (IH (y - lh) [ch]). cbn zeta in IH.
      destruct (dloopM s x (y - lh) lh [ch]) as [[t y'] l'].
      cbn [fst snd] in *.
      change (texts (DrawString x y line :: t)) with (line :: texts t).
      cbn [draw_lines]. now rewrite IH.
Qed.

Lemma draw_wrapped_calls (text : pystr) (x y lh : Q) :
  text <> [] ->
  drawM text x y lh
  = (SetFont font_name font_size
       :: fst (draw_lines DrawString x y lh (wrapM text)),
     snd (draw_lines DrawString x y lh (wrapM text))).
Proof.
  intros Hne. unfold draw_wrapped.
  pose proof (draw_wrapped_loop_agrees text x lh y [] []) as H.
  pose proof (draw_wrapped_loop_lines text x lh y []) as Hd.
  cbn zeta in H, Hd.
  destruct (dloopM text x y lh []) as [[t y'] line] eqn:E.
  cbn [fst snd] in H, Hd. destruct H as (Hl & _).
  destruct (wrap_lines_raw text Hne) as [Hw Hc].
  rewrite Hl in Hw, Hc. cbn [fst snd] in Hw, Hc. simpl in Hw.
  destruct line as [|c line]; [congruence|]. cbn [nonempty].
  rewrite Hw, draw_lines_app, Hd. reflexivity.
Qed.

(** X1.  [draw_wrapped] sets the font and then draws exactly the lines
    [wrap_lines] computes for a non-empty text, each with [drawString] at
    the same [x], the first at [y] and each next one a line height lower,
    and returns the cursor lowered by one line height per line; for the
    empty text it draws nothing and returns the cursor unchanged (where
    [wrap_lines] counts one empty line).  It never closes a page. *)
Theorem draw_wrapped_spec (text : pystr) (x y lh : Q) :
  let r := drawM text x y lh in
  pages (fst r) = 0%nat /\
  (text = [] -> r = ([SetFont font_name font_size], y)) /\
  (text <> [] ->
   texts (fst r) = wrapM text /\
   concat (texts (fst r)) = text /\
   snd r == y - inject_Z (Z.of_nat (length (wrapM text))) * lh /\
   length (fst r) = S (length (wrapM text)) /\
   nth_error (fst r) 0 = Some (SetFont font_name font_size) /\
   (forall i ln,
      nth_error (wrapM text) i = Some ln ->
      exists yi,
        nth_error (fst r) (S i) = Some (DrawString x yi ln) /\
        yi == y - inject_Z (Z.of_nat i) * lh)).
Proof.
  destruct (draw_wrapped_facts text x y lh) as (Hp & He & Hn).
  cbn zeta. split; [exact Hp|]. split; [exact He|].
  intros Hne. destruct (Hn Hne) as (Ht & Hc & Hy).
  split; [exact Ht|]. split; [exact Hc|]. split; [exact Hy|].
  rewrite (draw_wrapped_calls text x y lh Hne). cbn [fst].
  split; [|split].
  - cbn [length]. now rewrite draw_lines_length.
  - reflexivity.
  - intros i ln Hi. cbn [nth_error]. now apply draw_lines_nth.
Qed.

(** **** Greedy packing *)

Lemma greedy_from_last prev ls a :
  greedy_fromM prev (ls ++ [a]) -> a <> [].
Proof.
  revert prev. induction ls as [|l ls IH]; intros prev H; simpl in H.
  - destruct H as [(c & t & -> & _) _]. discriminate.
  - destruct H as [_ H]. now apply (IH l).
Qed.

Lemma greedy_from_snoc prev ls a ch :
  greedy_fromM prev (ls ++ [a]) ->
  fitsM (a ++ [ch]) = false ->
  greedy_fromM prev ((ls ++ [a]) ++ [[ch]]).
Proof.
  revert prev. induction ls as [|l ls IH]; intros prev H Hf; simpl in *.
  - destruct H as [H _]. repeat split; auto. now exists ch, [].
  - destruct H as [H1 H2]. split; auto.
Qed.

Lemma greedy_from_grow prev ls a ch :
  greedy_fromM prev (ls ++ [a]) ->
  greedy_fromM prev (ls ++ [a ++ [ch]]).
Proof.
  revert prev. induction ls as [|l ls IH]; intros prev H; simpl in *.
  - destruct H as [(c & t & -> & Hf) _]. split; auto.
    now exists c, (t ++ [ch]).
  - destruct H as [H1 H2]. split; auto.
Qed.

Lemma wrap_loop_greedy (s : pystr) :
  forall lines cur,
    greedyM (lines ++ [cur]) ->
    greedyM (fst (loopM s lines cur) ++ [snd (loopM s lines cur)]).
Proof.
  induction s as [|ch s IH]; intros lines cur H; simpl; auto.
  destruct (fitsM (cur ++ [ch])) eqn:E; apply IH.
  - destruct lines as [|l ls]; [exact I|]. simpl in *.
    now apply greedy_from_grow.
  - destruct lines as [|l ls]; simpl in *.
    + repeat split; auto. now exists ch, [].
    + now apply greedy_from_snoc.
Qed.

(** X2.  The packing is greedy and bounded: every line after the first
    begins with a character that would not have fitted at the end of the
    line before it (so only the first line can be empty), and a text of
    [n] characters wraps to at least one and at most [n + 1] lines. *)
Theorem wrap_lines_greedy (s : pystr) :
  greedyM (wrapM s) /\
  (1 <= length (wrapM s) <= S (length s))%nat.
Proof.
  split; [|apply wrap_lines_length].
  destruct s as [|c s]; [exact I|].
  destruct (wrap_lines_raw (c :: s)) as [E _]; [discriminate|].
  rewrite E. apply wrap_loop_greedy. exact I.
Qed.

(** **** Text that fits *)

Lemma wrap_loop_fits (s : pystr) :
  forall lines cur,
    (forall n, (n < length s)%nat -> fitsM (cur ++ firstn (S n) s) = true) ->
    loopM s lines cur = (lines, cur ++ s).
Proof.
  induction s as [|ch s IH]; intros lines cur H; simpl.
  - now rewrite List.app_nil_r.
  - pose proof (H 0%nat ltac:(simpl; lia)) as H0. simpl in H0.
    rewrite H0. rewrite IH.
    + now rewrite <- List.app_assoc.
    + intros n Hn. rewrite <- List.app_assoc. apply (H (S n)). simpl. lia.
Qed.

(** X3.  With a measurer that never shrinks when characters are appended,
    a non-empty text that fits in the width is returned as one line,
    unchanged. *)
Theorem wrap_lines_fitting (s : pystr)
  (Hmono : forall a b,
      stringWidth a font_name font_size
      <= stringWidth (a ++ b) font_name font_size)
  (Hfit : stringWidth s font_name font_size <= max_width)
  (Hne : s <> []) :
  wrapM s = [s].
Proof.
  destruct (wrap_lines_raw s Hne) as [E _]. rewrite E.
  rewrite (wrap_loop_fits s [] []); [reflexivity|].
  intros n _. simpl. unfold fits. apply Qle_bool_iff.
  eapply Qle_trans; [|exact Hfit].
  rewrite <- (firstn_skipn (S n) s) at 2. apply Hmono.
Qed.

End WrapMore.

Lemma wrap_lines_fitting_witness :
  wrap_lines half_em [] 10 30 (utf8 "hello") = [utf8 "hello"].
Proof.
  apply (wrap_lines_fitting half_em [] 10 30 (utf8 "hello")).
  - intros a b. unfold half_em. rewrite length_app, Nat2Z.inj_add.
    rewrite inject_Z_plus.
    assert (H : 0 <= inject_Z (Z.of_nat (length b))).
    { change 0 with (inject_Z 0). rewrite <- Zle_Qle. lia. }
    revert H. generalize (inject_Z (Z.of_nat (length a))).
    generalize (inject_Z (Z.of_nat (length b))). intros u v H. lra.
  - vm_compute. discriminate.
  - discriminate.
Defined.

(** * Further properties of the layout pass *)

Section LayoutMore.

Variable stringWidth : pystr -> pystr -> Q -> Q.
Variable py_float : pystr -> option float.
Variable str_float : float -> pystr.
Variable base_font : pystr.
Variable logo : logo_status.

#[local] Abbreviation wrapL := (wrap stringWidth base_font).
#[local] Abbreviation note_loopL := (note_loop base_font).
#[local] Abbreviation note_phaseL := (note_phase stringWidth base_font).
#[local] Abbreviation row_heightL :=
  (row_height stringWidth str_float base_font).
#[local] Abbreviation item_stepL :=
  (item_step stringWidth str_float base_font).
#[local] Abbreviation items_loopL :=
  (items_loop stringWidth str_float base_font).
#[local] Abbreviation draw_blockL := (draw_block stringWidth base_font).
#[local] Abbreviation render_phasesL :=
  (render_phases stringWidth str_float base_font logo).
#[local] Abbreviation generateL :=
  (generate_invoice_pdf stringWidth py_float str_float base_font logo).

Lemma Qlt_bool_true (a b : Q) : Qlt_bool a b = true -> a < b.
Proof.
  unfold Qlt_bool. rewrite negb_true_iff. intros H.
  apply Qnot_le_lt. intros Hle. apply Qle_bool_iff in Hle. congruence.
Qed.

Lemma Qlt_bool_false (a b : Q) : Qlt_bool a b = false -> b <= a.
Proof.
  unfold Qlt_bool. rewrite negb_false_iff. apply Qle_bool_imp_le.
Qed.

(** **** Note *)

Lemma note_loop_spec (lines : list pystr) :
  forall row_y,
    let t := fst (note_loopL lines row_y) in
    texts t = lines /\
    (pages t <= length lines)%nat /\
    Forall (above (24 * mm)) t.
Proof.
  induction lines as [|ln rest IH]; intros row_y; cbn zeta.
  - simpl. repeat split; auto.
  - cbn [note_loop].
    set (y := if Qlt_bool row_y (24 * mm) then height - margin_y else row_y).
    specialize (IH (y - 12)). cbn zeta in IH.
    destruct (note_loopL rest (y - 12)) as [t y']. cbn [fst] in *.
    destruct IH as (Ht & Hp & Ha).
    assert (Hy : 24 * mm <= y).
    { subst y. destruct (Qlt_bool row_y (24 * mm)) eqn:E.
      - apply Qle_bool_imp_le. reflexivity.
      - now apply Qlt_bool_false. }
    destruct (Qlt_bool row_y (24 * mm)).
    + split; [|split].
      * simpl. now rewrite Ht.
      * change (pages ([ShowPage; SetFont base_font 9] ++ ?l))
          with (S (pages l)).
        change (pages (DrawString margin_x y ln :: t)) with (pages t).
        simpl. lia.
      * repeat constructor; auto.
    + split; [|split].
      * simpl. now rewrite Ht.
      * change (pages ([] ++ DrawString margin_x y ln :: t)) with (pages t).
        simpl. lia.
      * repeat constructor; auto.
Qed.

(** X4.  The note is drawn completely and in order: the texts drawn are
    the wrapped lines of the note and concatenate to the note.  No note
    line is ever drawn below 24 mm, and the note closes at most one page
    per line. *)
Theorem note_phase_spec (note_text : pystr) (row_y : Q) :
  let t := fst (note_phaseL note_text row_y) in
  texts t = wrapL 9 note_max_w note_text /\
  concat (texts t) = note_text /\
  Forall (above (24 * mm)) t /\
  (pages t <= length (wrapL 9 note_max_w note_text))%nat.
Proof.
  cbn zeta. unfold note_phase.
  pose proof (note_loop_spec (wrapL 9 note_max_w note_text) (row_y - 22))
    as H. cbn zeta in H.
  destruct (note_loopL (wrapL 9 note_max_w note_text) (row_y - 22))
    as [t y]. cbn [fst] in *. destruct H as (Ht & Hp & Ha).
  change (texts (SetFont base_font 9 :: t)) with (texts t).
  change (pages (SetFont base_font 9 :: t)) with (pages t).
  split; [exact Ht|]. split; [|split; [|exact Hp]].
  - rewrite Ht. apply wrap_lines_concat.
  - constructor; [exact I | exact Ha].
Qed.

(** **** Rows and the 40 mm threshold *)

Lemma in_band_strictly_above lo lo' hi i :
  lo' <= lo -> in_band lo hi i -> strictly_above lo' i.
Proof.
  unfold in_band, strictly_above. destruct (instr_y i); auto.
  intros H [H1 _]. eapply Qle_lt_trans; eauto.
Qed.

Lemma item_step_above cur rate it row_y by_rate :
  row_heightL cur it <= max_row_height ->
  let r := item_stepL cur rate it row_y by_rate in
  Forall (strictly_above (40 * mm)) (fst (fst r)) /\
  40 * mm <= snd (fst r).
Proof.
  intros Hh. cbn zeta. unfold item_step. cbn [fst snd].
  assert (Hcur : 40 * mm
                 <= row_top stringWidth str_float base_font cur it row_y
                    - row_heightL cur it).
  { unfold row_top, overflows.
    destruct (Qlt_bool (row_y - row_heightL cur it) (40 * mm)) eqn:E.
    - unfold max_row_height in Hh.
      generalize dependent (row_heightL cur it). intros h; intros.
      unfold height, margin_y, mm in *. lra.
    - now apply Qlt_bool_false. }
  split; [|exact Hcur].
  constructor; [exact I|]. apply Forall_app; split.
  - destruct (overflows stringWidth str_float base_font cur it row_y);
      [|constructor].
    repeat constructor.
  - eapply Forall_impl;
      [|apply (draw_row_band stringWidth str_float base_font)].
    intros i. now apply in_band_strictly_above.
Qed.

Lemma items_loop_above cur rate its :
  Forall (fun it => row_heightL cur it <= max_row_height) its ->
  forall row_y by_rate,
    let r := items_loopL cur rate its row_y by_rate in
    Forall (strictly_above (40 * mm)) (fst (fst r)) /\
    (40 * mm <= row_y \/ its <> [] -> 40 * mm <= snd (fst r)).
Proof.
  induction 1 as [|it rest Hit Hrest IH]; intros row_y by_rate; cbn zeta.
  - simpl. split; [constructor|]. intros [H | H]; [exact H | congruence].
  - cbn [items_loop].
    pose proof (item_step_above cur rate it row_y by_rate Hit) as Hs.
    cbn zeta in Hs.
    destruct (item_stepL cur rate it row_y by_rate) as [[t1 y1] d1].
    cbn [fst snd] in Hs. destruct Hs as [Ht1 Hy1].
    specialize (IH y1 d1). cbn zeta in IH.
    destruct (items_loopL cur rate rest y1 d1) as [[t2 y2] d2].
    cbn [fst snd] in *. destruct IH as [Ht2 Hy2].
    split; [apply Forall_app; now split|].
    intros _. apply Hy2. now left.
Qed.

(** X5.  When every row is at most as tall as a fresh page allows
    ([height - margin_y - 80 mm]), no text of the item table is drawn at
    or below the 40 mm threshold, and after any item the cursor is at
    least 40 mm. *)
Theorem rows_stay_above_threshold (cur : pystr) (rate : float)
  (its : list item) (row_y : Q) (by_rate : rate_dict)
  (Hfit : Forall (fun it => row_heightL cur it <= max_row_height) its) :
  let r := items_loopL cur rate its row_y by_rate in
  Forall (strictly_above (40 * mm)) (fst (fst r)) /\
  (its <> [] -> 40 * mm <= snd (fst r)).
Proof.
  cbn zeta.
  destruct (items_loop_above cur rate its Hfit row_y by_rate) as [H1 H2].
  split; [exact H1|]. intros Hne. apply H2. now right.
Qed.

(** **** Seller and buyer blocks *)

Lemma draw_block_facts (lines : list pystr) (max_w : Q) :
  forall y,
    let r := draw_blockL lines y max_w in
    texts (fst r)
    = flat_map (wrap_lines stringWidth base_font text_font_size max_w)
        (filter nonempty lines) /\
    snd r == y - 12 * inject_Z (Z.of_nat (length (texts (fst r)))) /\
    pages (fst r) = 0%nat.
Proof.
  induction lines as [|line rest IH]; intros y; cbn zeta.
  - simpl. repeat split; try reflexivity. ring.
  - cbn [draw_block filter]. destruct (nonempty line) eqn:E.
    + pose proof (draw_wrapped_facts stringWidth base_font text_font_size
                    max_w line margin_x y 12) as H. cbn zeta in H.
      destruct (draw_wrapped stringWidth base_font text_font_size max_w
                  line margin_x y 12) as [t1 y1].
      cbn [fst snd] in H. destruct H as (Hp & _ & H).
      destruct H as (Ht & _ & Hy); [now destruct line|].
      specialize (IH y1). cbn zeta in IH.
      destruct (draw_blockL rest y1 max_w) as [t2 y2].
      cbn [fst snd] in *. destruct IH as (Ht2 & Hy2 & Hp2).
      split; [|split].
      * rewrite texts_app, Ht, Ht2. reflexivity.
      * rewrite Hy2, Hy, texts_app, length_app, Nat2Z.inj_add.
        rewrite inject_Z_plus, Ht. ring.
      * unfold pages in *. now rewrite filter_app, length_app, Hp, Hp2.
    + apply IH.
Qed.

Lemma concat_wrapped_fields (max_w : Q) (lines : list pystr) :
  concat (flat_map (wrap_lines stringWidth base_font text_font_size max_w)
            (filter nonempty lines))
  = concat lines.
Proof.
  induction lines as [|line rest IH]; simpl; auto.
  destruct line as [|c line]; simpl; auto.
  now rewrite concat_app, wrap_lines_concat, IH.
Qed.

(** X13.  A seller or buyer block shows every non-empty field in full and
    in order: the texts drawn are the wrapped lines of the non-empty
    fields and concatenate to the fields; an empty field draws nothing and
    takes no space, the cursor moving down 12 points per line drawn; the
    block never closes a page. *)
Theorem draw_block_spec (lines : list pystr) (y max_w : Q) :
  let r := draw_blockL lines y max_w in
  texts (fst r)
  = flat_map (wrap_lines stringWidth base_font text_font_size max_w)
      (filter nonempty lines) /\
  concat (texts (fst r)) = concat lines /\
  snd r == y - 12 * inject_Z (Z.of_nat (length (texts (fst r)))) /\
  pages (fst r) = 0%nat.
Proof.
  cbn zeta. destruct (draw_block_facts lines max_w y) as (Ht & Hy & Hp).
  split; [exact Ht|]. split; [|split; assumption].
  rewrite Ht. apply concat_wrapped_fields.
Qed.

(** **** Failure and page count of a render *)

(** The conversion of the tax rate raises exactly on a non-empty string
    that [float] rejects. *)
Lemma default_rate_none (d : invoice) :
  default_rate_of py_float d = None <->
  exists s, tax_rate d = PyStr s /\ s <> [] /\ py_float s = None.
Proof.
  unfold default_rate_of, truthy, to_float.
  destruct (tax_rate d) as [|s|q].
  - split; [discriminate | intros (s & H & _); discriminate].
  - destruct s as [|c s]; simpl.
    + split; [discriminate|]. intros (s' & H & Hne & _).
      inversion H; subst. congruence.
    + destruct (py_float (c :: s)) eqn:E.
      * split; [discriminate|]. intros (s' & H & _ & Hf).
        inversion H; subst. congruence.
      * split; auto. intros _. exists (c :: s).
        repeat split; [discriminate | exact E].
  - split.
    + destruct (negb (PrimFloat.eqb q 0)); discriminate.
    + intros (s & H & _); discriminate.
Qed.

(** The layout raises exactly when the label of the effective rate of an
    item does. *)
Lemma render_phases_none_item (d : invoice) (rate : float) :
  render_phasesL d rate = None <->
  exists it, In it (items d) /\ pct (effective_rate rate (taxv it)) = None.
Proof.
  rewrite (render_phases_none stringWidth str_float base_font logo).
  split.
  - intros (k & Hk & Ek). apply aggregate_keys_from in Hk.
    destruct Hk as [[] | (it & Hin & ->)]. now exists it.
  - intros (it & Hin & Ep).
    destruct (aggregate_keys_cover rate (items d) [] it Hin)
      as [Hk | (k & Hk & Ek)].
    + now exists (effective_rate rate (taxv it)).
    + exists k. split; [exact Hk|].
      now rewrite (TaxFacts.pct_eqb _ _ Ek).
Qed.

(** X8.  With numeric item quantities and prices, a render fails in
    exactly two ways: the tax rate stored in the record is a non-empty
    string that [float] rejects, or the rate converts and the label
    [int(rate * 100)] of the effective rate of some item raises, which it
    does exactly when [rate * 100] is not a finite number: for a [nan]
    rate, for an infinite one, and for one so large that the product
    overflows.  A missing, empty or numeric default rate never fails an
    invoice without items. *)
Theorem render_fails_iff (d : invoice) :
  (generateL d = None <->
   (exists s, tax_rate d = PyStr s /\ s <> [] /\ py_float s = None) \/
   (exists rate it,
      default_rate_of py_float d = Some rate /\
      In it (items d) /\
      pct (effective_rate rate (taxv it)) = None)) /\
  (forall r, pct r = None <-> is_finite (r * 100)%float = false) /\
  (forall r, is_number r = false -> pct r = None) /\
  pct infinity = None /\ pct neg_infinity = None /\
  pct 0x1p1020%float = None /\
  (items d = [] ->
   (generateL d = None <->
    exists s, tax_rate d = PyStr s /\ s <> [] /\ py_float s = None)).
Proof.
  assert (Hg : generateL d = None <->
               (exists s, tax_rate d = PyStr s /\ s <> [] /\
                          py_float s = None) \/
               (exists rate it,
                  default_rate_of py_float d = Some rate /\
                  In it (items d) /\
                  pct (effective_rate rate (taxv it)) = None)).
  { rewrite <- default_rate_none. unfold generate_invoice_pdf.
    destruct (default_rate_of py_float d) as [rate|].
    - pose proof (render_phases_none_item d rate) as Hn.
      destruct (render_phasesL d rate) as [p|].
      + split; [discriminate|].
        intros [H | (rate' & it & Hr & Hin & Ep)]; [discriminate|].
        injection Hr as <-.
        assert (Hx : Some p = None) by (apply Hn; now exists it).
        discriminate Hx.
      + split; [|reflexivity]. intros _. right.
        destruct Hn as [Hn _]. destruct (Hn eq_refl) as (it & Hin & Ep).
        now exists rate, it.
    - split; [now left | reflexivity]. }
  split; [exact Hg|].
  split.
  { intros r. unfold pct, int_of_float.
    destruct (is_finite (r * 100)); split; congruence. }
  split.
  { intros r Hr. destruct (pct r) eqn:E; [|reflexivity].
    assert (Hn : is_number r = true)
      by (apply TaxFacts.pct_number; congruence).
    congruence. }
  split; [reflexivity|]. split; [reflexivity|]. split; [reflexivity|].
  intros Hitems. rewrite Hg. split.
  - intros [H | (rate & it & _ & Hin & _)]; [exact H|].
    rewrite Hitems in Hin. destruct Hin.
  - intros H. now left.
Qed.

Lemma note_phase_pages (note_text : pystr) (row_y : Q) :
  (pages (fst (note_phaseL note_text row_y))
   <= length (wrapL 9 note_max_w note_text))%nat.
Proof.
  unfold note_phase.
  pose proof (note_loop_spec (wrapL 9 note_max_w note_text) (row_y - 22))
    as H. cbn zeta in H.
  destruct (note_loopL (wrapL 9 note_max_w note_text) (row_y - 22))
    as [t y]. cbn [fst] in H |- *.
  change (pages (SetFont base_font 9 :: t)) with (pages t). apply H.
Qed.

(** X9.  The number of pages of a render is at least 1 and at most the
    number of items, plus the number of characters of the note, plus 2:
    each item and each note line closes at most one page, and the render
    closes the last one.  A layout that does not return has an item whose
    rate has no label. *)
Theorem page_count_bounds (d : invoice) (rate : float) :
  match render_phasesL d rate with
  | Some p =>
      (1 <= pages (trace_of p)
       <= length (items d) + length (note d) + 2)%nat
  | None =>
      exists it,
        In it (items d) /\ pct (effective_rate rate (taxv it)) = None
  end.
Proof.
  destruct (render_phasesL d rate) as [p|] eqn:E;
    [|now apply render_phases_none_item].
  pose proof (trace_pages stringWidth str_float base_font logo
                d rate p E) as (_ & _ & Hp).
  apply (render_phases_some stringWidth str_float base_font logo) in E.
  cbv zeta in E. destruct E as (tp & _ & Ep).
  assert (Hi : (pages (ph_items p) <= length (items d))%nat).
  { rewrite Ep. cbn [ph_items]. apply items_loop_pages. }
  assert (Hn : (pages (ph_note p) <= S (length (note d)))%nat).
  { rewrite Ep. cbn [ph_note].
    eapply Nat.le_trans; [apply note_phase_pages|].
    apply wrap_lines_length. }
  lia.
Qed.

End LayoutMore.

(** * Further properties of the totals *)

Section TotalsMore.

Variable stringWidth : pystr -> pystr -> Q -> Q.
Variable py_float : pystr -> option float.
Variable str_float : float -> pystr.
Variable base_font : pystr.
Variable logo : logo_status.

#[local] Abbreviation render_phasesT :=
  (render_phases stringWidth str_float base_font logo).

Import FloatFacts TaxFacts.

(** Items without a rate of their own fill one bucket, the default's, in
    item order. *)
Lemma aggregate_one_bucket (rate : float) (its : list item) :
  Forall (fun it => taxv it = TaxNone) its ->
  is_number rate = true ->
  forall v,
    aggregate rate its [(rate, v)]
    = [(rate, fold_left PrimFloat.add (map item_subtotal its) v)].
Proof.
  intros Hnone Hnum.
  induction Hnone as [|it rest Hit Hrest IH]; intros v; [reflexivity|].
  rewrite aggregate_cons, Hit. cbn [effective_rate dict_add].
  unfold is_number in Hnum. rewrite Hnum. apply IH.
Qed.

Lemma single_items_no_rate (descs qtys units : list pystr) :
  Forall (fun it => taxv it = TaxNone) (single_items py_float descs qtys units).
Proof.
  revert qtys units.
  induction descs as [|dsc ds IH]; intros [|q qs] [|u us]; simpl;
    try constructor.
  destruct (nonempty dsc); [|apply IH].
  destruct (parse_qty_unit (float_or_zero py_float) q u).
  constructor; [reflexivity | apply IH].
Qed.

(** X11.  An invoice built by the single-invoice route has no per-item
    rate, so a render of it that returns has exactly one bucket, at the
    default rate, when it has items and none otherwise.  The bucket holds
    the running float sum of the item subtotals in item order; the
    subtotal is that sum and the tax that sum times the default rate,
    rounded once. *)
Theorem single_route_one_bucket (d : invoice) (rate : float)
  (descs qtys units : list pystr) (p : phases)
  (Hitems : items d = single_items py_float descs qtys units)
  (Hok : render_phasesT d rate = Some p) :
  let b := fsum (map item_subtotal (items d)) in
  ph_by_rate p = (match items d with [] => [] | _ => [(rate, b)] end) /\
  dict_keys (ph_by_rate p)
  = (match items d with [] => [] | _ => [rate] end) /\
  ph_total_sub p = (match items d with [] => 0 | _ => 0 + b end)%float /\
  ph_total_tax p
  = (match items d with [] => 0 | _ => 0 + b * rate end)%float.
Proof.
  intros b.
  assert (Hnone : Forall (fun it => taxv it = TaxNone) (items d))
    by (rewrite Hitems; apply single_items_no_rate).
  apply (render_phases_some stringWidth str_float base_font logo) in Hok.
  cbv zeta in Hok. destruct Hok as (tp & Etp & ->).
  cbn [ph_by_rate ph_total_sub ph_total_tax].
  pose proof (totals_phase_spec base_font _ _ _ _ Etp) as Ht.
  cbv zeta in Ht. destruct Ht as (_ & _ & _ & _ & Hsub & Htax & Hpct).
  rewrite Hsub, Htax.
  rewrite (items_loop_dict stringWidth str_float base_font) in *.
  subst b. destruct (items d) as [|it rest]; [repeat split; reflexivity|].
  inversion Hnone as [|? ? Hit Hrest]; subst.
  rewrite aggregate_cons, Hit in *. cbn [effective_rate dict_add] in *.
  assert (Hnum : is_number rate = true).
  { apply pct_number. rewrite Forall_forall in Hpct. apply Hpct.
    apply (Permutation_in _ (Permutation_sym (sorted_desc_perm _))).
    apply aggregate_keys_grow. now left. }
  rewrite (aggregate_one_bucket rate rest Hrest Hnum) in *.
  cbn [dict_keys map fst sorted_desc fold_right insert_desc dict_get].
  unfold is_number in Hnum. rewrite Hnum.
  repeat split; reflexivity.
Qed.

End TotalsMore.

(** * Properties of the intake code *)

Module SplitFacts.

Lemma split_on_nonempty sep s : split_on sep s <> [].
Proof.
  destruct s as [|c s]; simpl; [discriminate|].
  destruct (c =? sep)%N; [discriminate|].
  destruct (split_on sep s); discriminate.
Qed.

Lemma split_on_no_sep sep s :
  Forall (fun piece => ~ In sep piece) (split_on sep s).
Proof.
  induction s as [|c s IH]; simpl.
  - constructor; [tauto | constructor].
  - destruct (N.eqb_spec c sep) as [->|Hne].
    + constructor; [tauto | exact IH].
    + destruct (split_on sep s) as [|h t]; inversion IH; subst.
      * constructor; [|constructor]. intros [H | []]. congruence.
      * constructor; auto. intros [H | H]; [congruence | tauto].
Qed.

Lemma split_on_incl sep s piece c :
  In piece (split_on sep s) -> In c piece -> In c s.
Proof.
  revert piece. induction s as [|x s IH]; intros piece; simpl.
  - intros [<- | []] [].
  - destruct (x =? sep)%N.
    + intros [<- | H] Hc; [destruct Hc | right; eauto].
    + pose proof (split_on_nonempty sep s) as Hne.
      destruct (split_on sep s) as [|h t]; [congruence|].
      intros [<- | H] Hc.
      * destruct Hc as [-> | Hc]; [now left | right].
        apply (IH h); [now left | exact Hc].
      * right. apply (IH piece); [now right | exact Hc].
Qed.

Lemma split_on_length sep s :
  length (split_on sep s) = S (count_occ N.eq_dec s sep).
Proof.
  induction s as [|c s IH]; simpl; auto.
  destruct (N.eqb_spec c sep) as [->|Hne].
  - destruct (N.eq_dec sep sep); [|congruence]. simpl. now rewrite IH.
  - destruct (N.eq_dec c sep); [congruence|].
    pose proof (split_on_nonempty sep s) as Hn.
    destruct (split_on sep s) as [|h t]; [congruence|]. exact IH.
Qed.

Lemma lstrip_incl s c : In c (lstrip s) -> In c s.
Proof.
  induction s as [|x s IH]; simpl; auto.
  destruct (is_space x); auto.
Qed.

Lemma lstrip_hd s c : hd_error (lstrip s) = Some c -> is_space c = false.
Proof.
  induction s as [|x s IH]; simpl; [discriminate|].
  destruct (is_space x) eqn:E; auto.
  simpl. intros H. inversion H; subst. exact E.
Qed.

Lemma lstrip_snoc s h :
  is_space h = false -> lstrip (s ++ [h]) = lstrip s ++ [h].
Proof.
  intros Hh. induction s as [|x s IH]; simpl.
  - now rewrite Hh.
  - destruct (is_space x); auto.
Qed.

Lemma strip_incl s c : In c (strip s) -> In c s.
Proof.
  unfold strip. intros H. apply in_rev in H.
  apply lstrip_incl in H. apply in_rev in H. now apply lstrip_incl.
Qed.

Lemma strip_trimmed s : trimmed (strip s).
Proof.
  unfold trimmed, strip. split.
  - destruct (lstrip s) as [|h t] eqn:E; [discriminate|].
    assert (Hh : is_space h = false) by (apply (lstrip_hd s); now rewrite E).
    simpl rev at 2. rewrite (lstrip_snoc _ _ Hh), rev_app_distr. simpl.
    intros c H. inversion H; subst. exact Hh.
  - rewrite rev_involutive. apply lstrip_hd.
Qed.

End SplitFacts.

Section IntakeFacts.

Variable py_float : pystr -> option float.

Import SplitFacts.

#[local] Abbreviation shape_ok :=
  (fun it : item =>
     trimmed (desc it) /\ ~ In pipe (desc it) /\ ~ In semicolon (desc it)
     /\ taxv it <> TaxEmpty).

Lemma parse_part_shape (part : pystr) :
  ~ In semicolon part ->
  Forall shape_ok (parse_part py_float part) /\
  (length (parse_part py_float part) <= 1)%nat.
Proof.
  intros Hsemi. rewrite parse_part_segments.
  pose proof (split_on_no_sep pipe (strip part)) as Hpipe.
  assert (Hsub : forall piece, In piece (split_on pipe (strip part)) ->
                   ~ In semicolon piece).
  { intros piece Hin Hc. apply Hsemi, strip_incl.
    eapply split_on_incl; eauto. }
  destruct (split_on pipe (strip part)) as [|d [|q [|u rest]]];
    cbn [map length];
    [split; [constructor | simpl; lia] ..|].
  split; [|simpl; lia]. constructor; [|constructor]. cbn [desc taxv].
  inversion Hpipe as [|? ? Hd _]; subst.
  split; [apply strip_trimmed|]. split; [|split].
  - intros H. apply Hd. now apply strip_incl.
  - intros H. apply (Hsub d); [now left | now apply strip_incl].
  - unfold parse_taxv. destruct (map strip rest) as [|s3 r]; [discriminate|].
    destruct (nonempty s3); [|discriminate].
    destruct (py_float s3); discriminate.
Qed.

(** X12.  Whatever the items cell holds, every item the batch route
    builds has a description with no white space at either end and no
    [|] or [;] in it, and a tax rate that is absent or a number, never the
    empty string; and the cell yields at most one item per [;]-separated
    part, that is at most one more than it has semicolons. *)
Theorem batch_items_shape (items_raw : pystr) :
  let its := batch_items py_float items_raw in
  Forall shape_ok its /\
  (length its <= S (count_occ N.eq_dec items_raw semicolon))%nat.
Proof.
  cbn zeta. rewrite batch_items_flat_map.
  rewrite <- (split_on_length semicolon items_raw).
  pose proof (split_on_no_sep semicolon items_raw) as H.
  induction H as [|part parts Hp Hps [IH1 IH2]]; simpl.
  - split; [constructor | lia].
  - destruct (parse_part_shape part Hp) as [H1 H2].
    split; [apply Forall_app; now split|].
    rewrite length_app. lia.
Qed.

#[local] Abbreviation singleI := (single_items py_float).

(** X10.  The single-invoice route reads the three form lists row by row
    up to the shortest: rows are independent, a row without a description
    is dropped, every item built has a non-empty description and no rate
    of its own; a blank quantity counts as 0 and keeps the unit price,
    while a quantity or unit price that [float] rejects zeroes both. *)
Theorem single_items_spec (descs qtys units : list pystr) :
  let its := singleI descs qtys units in
  Forall (fun it => taxv it = TaxNone /\ desc it <> []) its /\
  map desc its
  = filter nonempty (firstn (Nat.min (length qtys) (length units)) descs) /\
  (forall d q u,
     singleI (d :: descs) (q :: qtys) (u :: units)
     = singleI [d] [q] [u] ++ its) /\
  (forall d u uv, d <> [] -> u <> [] -> py_float u = Some uv ->
     singleI [d] [[]] [u] = [mkItem d 0 uv TaxNone]) /\
  (forall d q u, d <> [] ->
     (q <> [] /\ py_float q = None) \/ (u <> [] /\ py_float u = None) ->
     singleI [d] [q] [u] = [mkItem d 0 0 TaxNone]).
Proof.
  cbn zeta. split; [|split; [|split; [|split]]].
  - revert qtys units.
    induction descs as [|d ds IH]; intros [|q qs] [|u us]; simpl;
      try constructor.
    destruct (nonempty d) eqn:E; [|apply IH].
    destruct (parse_qty_unit (float_or_zero py_float) q u).
    constructor; [|apply IH]. split; [reflexivity|].
    cbn [desc]. now destruct d.
  - revert qtys units.
    induction descs as [|d ds IH]; intros [|q qs] [|u us]; simpl;
      try reflexivity.
    destruct (nonempty d) eqn:E; [|apply IH].
    destruct (parse_qty_unit (float_or_zero py_float) q u).
    simpl. now rewrite IH.
  - intros d q u. simpl. destruct (nonempty d); [|reflexivity].
    now destruct (parse_qty_unit (float_or_zero py_float) q u).
  - intros d u uv Hd Hu Hf. simpl.
    destruct d as [|c d]; [congruence|]. simpl.
    unfold parse_qty_unit, float_or_zero. simpl.
    destruct u as [|cu u]; [congruence|]. simpl. now rewrite Hf.
  - intros d q u Hd H. simpl.
    destruct d as [|c d]; [congruence|]. simpl.
    unfold parse_qty_unit, float_or_zero.
    destruct H as [[Hq Hf] | [Hu Hf]].
    + destruct q as [|cq q]; [congruence|]. simpl. now rewrite Hf.
    + destruct u as [|cu u]; [congruence|]. simpl. rewrite Hf.
      now destruct (if nonempty q then py_float q else Some 0%float).
Qed.

End IntakeFacts.

(** * Properties of the font lookup *)

Section FontFacts.

Variable path_exists : pystr -> bool.
Variable register_ttf : pystr -> pystr -> bool.
Variable register_cid : bool.
Variable stem : pystr -> pystr.
Variable fonts_path : pystr -> pystr.

#[local] Abbreviation usableF := (usable path_exists register_ttf stem).
#[local] Abbreviation first_fontF :=
  (first_font path_exists register_ttf stem).
#[local] Abbreviation registerF :=
  (register_jp_font path_exists register_ttf register_cid stem fonts_path).
#[local] Abbreviation candidatesF := (candidates fonts_path).

Lemma first_font_some paths name :
  first_fontF paths = Some name ->
  exists before path rest,
    paths = before ++ path :: rest /\
    Forall (fun q => usableF q = false) before /\
    usableF path = true /\ name = stem path.
Proof.
  induction paths as [|path rest IH]; simpl; [discriminate|].
  fold (usableF path). destruct (usableF path) eqn:E.
  - intros H. inversion H; subst. exists [], path, rest. auto.
  - intros H. destruct (IH H) as (b & q & r & -> & Hb & Hq & Hn).
    exists (path :: b), q, r. repeat split; auto.
Qed.

Lemma first_font_none paths :
  first_fontF paths = None <-> Forall (fun q => usableF q = false) paths.
Proof.
  induction paths as [|path rest IH]; simpl.
  - split; auto.
  - fold (usableF path). destruct (usableF path) eqn:E.
    + split; [discriminate|]. intros H. inversion H; congruence.
    + rewrite IH. split; [now constructor|]. intros H. now inversion H.
Qed.

(** X14.  The font lookup tries the environment's font first, then the
    three bundled files in their fixed order, and takes the first one
    that is non-empty, exists and registers, naming the font after the
    file; when none does, it falls back to the CID font if that registers;
    it returns nothing exactly when every candidate and the CID font fail.
    The font name the layout uses is never empty. *)
Theorem register_jp_font_spec (env_font jp : option pystr) :
  (forall name, registerF env_font = Some name ->
     (exists before path rest,
        candidatesF env_font = before ++ path :: rest /\
        Forall (fun q => usableF q = false) before /\
        usableF path = true /\ name = stem path) \/
     (Forall (fun q => usableF q = false) (candidatesF env_font) /\
      register_cid = true /\ name = utf8 "HeiseiKakuGo-W5")) /\
  (registerF env_font = None <->
   Forall (fun q => usableF q = false) (candidatesF env_font) /\
   register_cid = false) /\
  (forall f, env_font = Some f -> usableF f = true ->
     registerF env_font = Some (stem f)) /\
  base_font_of jp <> [].
Proof.
  unfold register_jp_font. split; [|split; [|split]].
  - intros name.
    destruct (first_fontF (candidatesF env_font)) as [n|] eqn:E.
    + intros H. inversion H; subst. left. now apply first_font_some.
    + apply first_font_none in E. destruct register_cid; [|discriminate].
      intros H. inversion H; subst. right. auto.
  - destruct (first_fontF (candidatesF env_font)) as [n|] eqn:E.
    + split; [discriminate|]. intros [H _].
      apply first_font_none in H. congruence.
    + apply first_font_none in E.
      destruct register_cid; split; try discriminate; auto.
      intros [_ H]. discriminate.
  - intros f -> Hf. unfold candidates.
    assert (Hn : nonempty f = true).
    { unfold usable in Hf. now destruct (nonempty f). }
    rewrite Hn. simpl. fold (usableF f). now rewrite Hf.
  - unfold base_font_of. destruct jp as [[|c n]|]; simpl; discriminate.
Qed.

End FontFacts.

(** * The item table and the tax rates *)

Section TableFacts.

Variable stringWidth : pystr -> pystr -> Q -> Q.
Variable str_float : float -> pystr.
Variable base_font : pystr.

#[local] Abbreviation item_stepN :=
  (item_step stringWidth str_float base_font).
#[local] Abbreviation items_loopN :=
  (items_loop stringWidth str_float base_font).

Lemma item_step_same_row cur rate rate' a b row_y by_rate by_rate' :
  same_row a b ->
  fst (item_stepN cur rate a row_y by_rate)
  = fst (item_stepN cur rate' b row_y by_rate').
Proof.
  destruct a as [d q u t], b as [d' q' u' t'].
  intros (Hd & Hq & Hu). simpl in Hd, Hq, Hu. subst d' q' u'.
  reflexivity.
Qed.

(** X15.  The drawing of the item table does not depend on any tax rate:
    two item lists that agree on descriptions, quantities and unit prices
    produce the same calls, page breaks included, and leave the same
    cursor, whatever their per-item rates, the default rate and the
    buckets already filled. *)
Theorem table_ignores_tax_rates (cur : pystr) (rate rate' : float)
  (its its' : list item) (row_y : Q) (by_rate by_rate' : rate_dict)
  (Hsame : Forall2 same_row its its') :
  fst (items_loopN cur rate its row_y by_rate)
  = fst (items_loopN cur rate' its' row_y by_rate').
Proof.
  revert row_y by_rate by_rate'.
  induction Hsame as [|a b l l' Hab Hl IH]; intros row_y by_rate by_rate'.
  - reflexivity.
  - cbn [items_loop].
    pose proof (item_step_same_row cur rate rate' a b row_y by_rate by_rate'
                  Hab) as Hs.
    destruct (item_stepN cur rate a row_y by_rate) as [[t1 y1] d1].
    destruct (item_stepN cur rate' b row_y by_rate') as [[t1' y1'] d1'].
    cbn [fst] in Hs. inversion Hs; subst.
    specialize (IH y1' d1 d1').
    destruct (items_loopN cur rate l y1' d1) as [[t2 y2] d2].
    destruct (items_loopN cur rate' l' y1' d1') as [[t2' y2'] d2'].
    cbn [fst] in *. now inversion IH; subst.
Qed.

End TableFacts.

(** * Concrete runs of the further properties *)

Lemma rows_stay_above_threshold_witness :
  let its := [mkItem (utf8 "Design") 10 100 TaxNone;
              mkItem (utf8 "Drink") 5 200 TaxNone] in
  let r := items_loop half_em str_float_1 helvetica JPY 0 its 128 [] in
  Forall (strictly_above (40 * mm)) (fst (fst r)) /\
  (its <> [] -> 40 * mm <= snd (fst r)).
Proof.
  apply (rows_stay_above_threshold half_em str_float_1 helvetica JPY 0
           [mkItem (utf8 "Design") 10 100 TaxNone;
            mkItem (utf8 "Drink") 5 200 TaxNone] 128 []).
  repeat constructor; apply Qle_bool_imp_le; vm_compute; reflexivity.
Defined.

Lemma single_route_one_bucket_witness :
  let d := with_items
             (single_items digits_float [utf8 "Design"; []; utf8 "Drink"]
                [utf8 "10"; utf8 "1"; []] [utf8 "100"; utf8 "5"; utf8 "x"])
             blank_invoice in
  exists p,
    render_phases half_em str_float_1 helvetica LogoAbsent d 0.1 = Some p /\
    dict_keys (ph_by_rate p) = [0.1%float] /\
    ph_total_sub p = 1000%float /\
    ph_total_tax p = 100%float.
Proof.
  intros d.
  assert (H : {p | render_phases half_em str_float_1 helvetica LogoAbsent
                     d 0.1 = Some p})
    by (eexists; vm_compute; reflexivity).
  destruct H as [p Hp]. exists p. split; [exact Hp|].
  pose proof (single_route_one_bucket half_em digits_float str_float_1
                helvetica LogoAbsent d 0.1
                [utf8 "Design"; []; utf8 "Drink"]
                [utf8 "10"; utf8 "1"; []] [utf8 "100"; utf8 "5"; utf8 "x"]
                p eq_refl Hp) as T.
  cbv zeta in T. destruct T as (_ & Hk & Hs & Ht).
  split; [exact Hk|]. split; [exact Hs | exact Ht].
Defined.

(** The rows of the single-invoice form above: the second has no
    description, the third a unit price that does not convert. *)
Example single_items_example :
  single_items digits_float [utf8 "Design"; []; utf8 "Drink"]
    [utf8 "10"; utf8 "1"; []] [utf8 "100"; utf8 "5"; utf8 "x"]
  = [mkItem (utf8 "Design") 10 100 TaxNone;
     mkItem (utf8 "Drink") 0 0 TaxNone].
Proof. vm_compute. reflexivity. Qed.

(** A text too wide for its column is drawn on the lines [wrap_lines]
    computes, 12 points apart. *)
Example draw_wrapped_example :
  let r := draw_wrapped half_em helvetica 10 12 (utf8 "hello") 0 100 12 in
  fst r
  = [SetFont helvetica 10;
     DrawString 0 100 (utf8 "he");
     DrawString 0 (100 - 12) (utf8 "ll");
     DrawString 0 (100 - 12 - 12) (utf8 "o")] /\
  Qred (snd r) = 64.
Proof. vm_compute. repeat split; reflexivity. Qed.

(** A rate that is not a number, in the record or on an item, fails the
    render of an invoice with items, and so does one whose hundredfold
    overflows; without items the same record renders. *)
Example nan_rate_example :
  let its := [mkItem (utf8 "Design") 10 100 TaxNone] in
  let render d :=
    generate_invoice_pdf half_em digits_float str_float_1 helvetica
      LogoAbsent d in
  render (with_items its (with_tax_rate (PyFloat nan) blank_invoice))
  = None /\
  render (with_items its (with_tax_rate (PyFloat infinity) blank_invoice))
  = None /\
  render (with_items its (with_tax_rate (PyFloat 1e307) blank_invoice))
  = None /\
  render (with_items [mkItem (utf8 "Design") 10 100 (TaxRate nan)]
            blank_invoice)
  = None /\
  render (with_tax_rate (PyFloat nan) blank_invoice) <> None.
Proof. vm_compute. repeat split; try reflexivity. discriminate. Qed.

Lemma table_ignores_tax_rates_witness :
  fst (items_loop half_em str_float_1 helvetica JPY 0
         [mkItem (utf8 "Design") 10 100 TaxNone] 128 [])
  = fst (items_loop half_em str_float_1 helvetica JPY 0.1
           [mkItem (utf8 "Design") 10 100 (TaxRate 0.08)] 128
           [(0.1, 5)%float]).
Proof.
  apply (table_ignores_tax_rates half_em str_float_1 helvetica JPY 0 0.1
           [mkItem (utf8 "Design") 10 100 TaxNone]
           [mkItem (utf8 "Design") 10 100 (TaxRate 0.08)] 128 []
           [(0.1, 5)%float]).
  repeat constructor.
Defined.
